(** * Session relay and recorder of [main.py]

    A shallow embedding of the WebSocket handler [websocket_call] of
    [src/main.py]: the WAV header builder, the per-session recorder files,
    the relay loop, the Deepgram agent thread with its keep-alive thread,
    and the serialisation of transcript events. *)

From Stdlib Require Import ZArith NArith Strings.Byte Ascii String.
From stdpp Require Import gmap strings list fin_maps.

Local Open Scope Z_scope.

(** ** Python values *)

(** [bytes] / [bytearray] objects. *)
Abbreviation bytes := (list byte).

Definition byte_of_Z (z : Z) : byte :=
  match Byte.of_N (Z.to_N z) with
  | Some b => b
  | None => x00
  end.

(** The little-endian digits of [int.to_bytes]: [n] bytes, least
    significant first. *)
Fixpoint le_bytes (v : Z) (n : nat) : bytes :=
  match n with
  | O => []
  | S k => byte_of_Z (v mod 256) :: le_bytes (v / 256) k
  end.

(** [v.to_bytes(n, 'little')] (unsigned): [None] stands for the
    [OverflowError] Python raises when [v] is negative or needs more than
    [n] bytes. *)
Definition to_bytes (v : Z) (n : nat) : option bytes :=
  if (0 <=? v) && (v <? 256 ^ Z.of_nat n) then Some (le_bytes v n) else None.

(** [bytearray(n)]: [n] zero bytes. *)
Definition bytearray (n : nat) : bytes := replicate n x00.

(** Slice assignment [h[i:j] = bs] on a bytearray, for [i <= j <= len(h)]:
    the slice is replaced by [bs], whatever the length of [bs]. *)
Definition set_slice (h : bytes) (i j : nat) (bs : bytes) : bytes :=
  take i h ++ bs ++ drop j h.

(** The slice [h[i:j]]. *)
Definition slice (h : bytes) (i j : nat) : bytes := take (j - i) (drop i h).

(** ** WAV encoder: [create_wav_header] (lines 41-58) *)

Module Wav.

Definition RIFF : bytes := list_byte_of_string "RIFF".
Definition WAVE : bytes := list_byte_of_string "WAVE".
Definition fmt_ : bytes := list_byte_of_string "fmt ".
Definition data : bytes := list_byte_of_string "data".

Definition byte_rate (sample_rate bits_per_sample channels : Z) : Z :=
  sample_rate * channels * (bits_per_sample / 8).

Definition block_align (bits_per_sample channels : Z) : Z :=
  channels * (bits_per_sample / 8).

(** The function body, statement by statement; a [to_bytes] that raises
    aborts the call. *)
Definition create_wav_header (sample_rate bits_per_sample channels : Z)
  : option bytes :=
  let byte_rate := byte_rate sample_rate bits_per_sample channels in
  let block_align := block_align bits_per_sample channels in
  let header := bytearray 44 in
  let header := set_slice header 0 4 RIFF in
  b ← to_bytes 36 4; let header := set_slice header 4 8 b in
  let header := set_slice header 8 12 WAVE in
  let header := set_slice header 12 16 fmt_ in
  b ← to_bytes 16 4; let header := set_slice header 16 20 b in
  b ← to_bytes 1 2; let header := set_slice header 20 22 b in
  b ← to_bytes channels 2; let header := set_slice header 22 24 b in
  b ← to_bytes sample_rate 4; let header := set_slice header 24 28 b in
  b ← to_bytes byte_rate 4; let header := set_slice header 28 32 b in
  b ← to_bytes block_align 2; let header := set_slice header 32 34 b in
  b ← to_bytes bits_per_sample 2; let header := set_slice header 34 36 b in
  let header := set_slice header 36 40 data in
  b ← to_bytes 0 4; let header := set_slice header 40 44 b in
  Some header.

(** The defaults of the signature: 24 kHz, 16 bit, mono. *)
Definition default_sample_rate : Z := 24000.
Definition default_bits_per_sample : Z := 16.
Definition default_channels : Z := 1.

Definition create_wav_header_default : option bytes :=
  create_wav_header default_sample_rate default_bits_per_sample
    default_channels.

(** The constraints the specification puts on the parameters. *)
Definition params_ok (sample_rate bits_per_sample channels : Z) : Prop :=
  bits_per_sample mod 8 = 0 ∧ 1 <= channels ∧ 0 < sample_rate.

(** Every value written with [to_bytes] fits its field. *)
Definition fields_fit (sample_rate bits_per_sample channels : Z) : Prop :=
  0 <= channels < 2 ^ 16 ∧
  0 <= sample_rate < 2 ^ 32 ∧
  0 <= byte_rate sample_rate bits_per_sample channels < 2 ^ 32 ∧
  0 <= block_align bits_per_sample channels < 2 ^ 16 ∧
  0 <= bits_per_sample < 2 ^ 16.

(** The "remaining size" field, bytes 4..8, and the "data size" field,
    bytes 40..44. *)
Definition riff_size_field (h : bytes) : bytes := slice h 4 8.
Definition data_size_field (h : bytes) : bytes := slice h 40 44.

End Wav.

(** ** Transcript events and their JSON text

    [conversation_text.__dict__] is a [dict] from attribute names to the
    attribute values, which are [str] for the SDK's conversation-text
    response ([type], [role], [content]).  [dumps] is [json.dumps] with its
    defaults ([ensure_ascii], separators [", "] and [": "]) on such a dict;
    [loads] is [json.loads] on the texts that are objects with string
    members, and [None] on every other text. *)

Module Json.

Definition pystr := list N.
Definition event := list (pystr * pystr).

Definition quote : ascii := "034"%char.
Definition backslash : ascii := "092"%char.
Definition newline : ascii := "010"%char.

Definition hex_digit (n : N) : ascii :=
  if (n <? 10)%N then ascii_of_N (48 + n) else ascii_of_N (87 + n).

Definition hex4 (n : N) : string :=
  String (hex_digit (n / 4096 mod 16))
    (String (hex_digit (n / 256 mod 16))
       (String (hex_digit (n / 16 mod 16))
          (String (hex_digit (n mod 16)) EmptyString))).

Definition escape_u (n : N) : string :=
  String backslash (String "u" (hex4 n)).

Definition escape_char (c : N) : string :=
  if (c =? 34)%N then String backslash (String quote EmptyString)
  else if (c =? 92)%N then String backslash (String backslash EmptyString)
  else if (c =? 10)%N then String backslash "n"
  else if (c =? 13)%N then String backslash "r"
  else if (c =? 9)%N then String backslash "t"
  else if (c =? 8)%N then String backslash "b"
  else if (c =? 12)%N then String backslash "f"
  else if (32 <=? c)%N && (c <=? 126)%N then String (ascii_of_N c) EmptyString
  else if (c <? 0x10000)%N then escape_u c
  else
    let n := (c - 0x10000)%N in
    let s1 := N.lor 0xd800 (N.land (N.shiftr n 10) 0x3ff) in
    let s2 := N.lor 0xdc00 (N.land n 0x3ff) in
    (escape_u s1 ++ escape_u s2)%string.

Fixpoint escape_all (s : pystr) : string :=
  match s with
  | [] => EmptyString
  | c :: s' => (escape_char c ++ escape_all s')%string
  end.

Definition encode_str (s : pystr) : string :=
  String quote (escape_all s ++ String quote EmptyString).

Definition encode_item (kv : pystr * pystr) : string :=
  (encode_str kv.1 ++ ": " ++ encode_str kv.2)%string.

Fixpoint encode_items (e : event) : string :=
  match e with
  | [] => EmptyString
  | [kv] => encode_item kv
  | kv :: e' => (encode_item kv ++ ", " ++ encode_items e')%string
  end.

Definition dumps (e : event) : string :=
  ("{" ++ encode_items e ++ "}")%string.

Definition hex_val (a : ascii) : option N :=
  let n := N_of_ascii a in
  if (48 <=? n)%N && (n <=? 57)%N then Some (n - 48)%N
  else if (97 <=? n)%N && (n <=? 102)%N then Some (n - 87)%N
  else if (65 <=? n)%N && (n <=? 70)%N then Some (n - 55)%N
  else None.

Definition decode_hex4 (a b c d : ascii) : option N :=
  x3 ← hex_val a; x2 ← hex_val b; x1 ← hex_val c; x0 ← hex_val d;
  Some (x3 * 4096 + x2 * 256 + x1 * 16 + x0)%N.

Definition unescape (a : ascii) : option N :=
  let n := N_of_ascii a in
  if (n =? 34)%N then Some 34%N
  else if (n =? 92)%N then Some 92%N
  else if (n =? 47)%N then Some 47%N
  else if (n =? 98)%N then Some 8%N
  else if (n =? 102)%N then Some 12%N
  else if (n =? 110)%N then Some 10%N
  else if (n =? 114)%N then Some 13%N
  else if (n =? 116)%N then Some 9%N
  else None.

Definition is_high (u : N) : bool := (0xd800 <=? u)%N && (u <=? 0xdbff)%N.
Definition is_low (u : N) : bool := (0xdc00 <=? u)%N && (u <=? 0xdfff)%N.

Definition join_surrogates (hi lo : N) : N :=
  (0x10000 + N.lor (N.shiftl (hi - 0xd800) 10) (lo - 0xdc00))%N.

Definition emit (c : N) (r : option (pystr * string)) : option (pystr * string) :=
  '(cs, rest) ← r; Some (c :: cs, rest).

Definition flush (hi : option N) (r : option (pystr * string))
  : option (pystr * string) :=
  match hi with
  | None => r
  | Some h => emit h r
  end.

Fixpoint scanstring (hi : option N) (s : string) : option (pystr * string) :=
  match s with
  | EmptyString => None
  | String a r =>
    let n := N_of_ascii a in
    if (n =? 34)%N then flush hi (Some ([], r))
    else if (n =? 92)%N then
      match r with
      | EmptyString => None
      | String b r1 =>
        if (N_of_ascii b =? 117)%N then
          match r1 with
          | String h1 (String h2 (String h3 (String h4 r2))) =>
            match decode_hex4 h1 h2 h3 h4 with
            | None => None
            | Some u =>
              match hi with
              | Some h =>
                if is_low u then emit (join_surrogates h u) (scanstring None r2)
                else if is_high u then emit h (scanstring (Some u) r2)
                else emit h (emit u (scanstring None r2))
              | None =>
                if is_high u then scanstring (Some u) r2
                else emit u (scanstring None r2)
              end
            end
          | _ => None
          end
        else
          match unescape b with
          | Some c => flush hi (emit c (scanstring None r1))
          | None => None
          end
      end
    else if (n <? 32)%N then None
    else if (127 <? n)%N then None
    else flush hi (emit n (scanstring None r))
  end.

Definition is_ws (a : ascii) : bool :=
  let n := N_of_ascii a in
  (n =? 32)%N || (n =? 9)%N || (n =? 10)%N || (n =? 13)%N.

Fixpoint skip_ws (s : string) : string :=
  match s with
  | String a r => if is_ws a then skip_ws r else s
  | EmptyString => s
  end.

Fixpoint parse_members (fuel : nat) (s : string)
  : option (list (pystr * pystr) * string) :=
  match fuel with
  | O => None
  | S fuel' =>
    '(k, s) ← scanstring None s;
    match skip_ws s with
    | String c s =>
      if negb (N_of_ascii c =? 58)%N then None else
      match skip_ws s with
      | String c s =>
        if negb (N_of_ascii c =? 34)%N then None else
        '(v, s) ← scanstring None s;
        match skip_ws s with
        | String c s =>
          if (N_of_ascii c =? 125)%N then Some ([(k, v)], s)
          else if (N_of_ascii c =? 44)%N then
            match skip_ws s with
            | String c s =>
              if negb (N_of_ascii c =? 34)%N then None else
              '(ps, s) ← parse_members fuel' s; Some ((k, v) :: ps, s)
            | EmptyString => None
            end
          else None
        | EmptyString => None
        end
      | EmptyString => None
      end
    | EmptyString => None
    end
  end.

Definition parse_object (s : string) : option (list (pystr * pystr) * string) :=
  match skip_ws s with
  | String c s =>
    if negb (N_of_ascii c =? 123)%N then None else
    match skip_ws s with
    | String c s' =>
      if (N_of_ascii c =? 125)%N then Some ([], s')
      else if (N_of_ascii c =? 34)%N then parse_members (String.length s') s'
      else None
    | EmptyString => None
    end
  | EmptyString => None
  end.

Fixpoint dict_set (k v : pystr) (d : event) : event :=
  match d with
  | [] => [(k, v)]
  | (k', v') :: d' =>
    if decide (k = k') then (k, v) :: d' else (k', v') :: dict_set k v d'
  end.

Definition dict (ps : list (pystr * pystr)) : event :=
  foldl (λ d kv, dict_set kv.1 kv.2 d) [] ps.

Definition loads (s : string) : option event :=
  '(ps, rest) ← parse_object s;
  match skip_ws rest with
  | EmptyString => Some (dict ps)
  | String _ _ => None
  end.

Fixpoint readlines (s : string) : list string :=
  match s with
  | EmptyString => []
  | String a r =>
    if (N_of_ascii a =? 10)%N then String a EmptyString :: readlines r
    else
      match readlines r with
      | [] => [String a EmptyString]
      | l :: ls => String a l :: ls
      end
  end.

(** A [str] the decoder gives back as it was: code points below
    [0x110000], and no high surrogate directly followed by a low one (the
    decoder joins such a pair into one code point). *)
Fixpoint text_ok (s : pystr) : bool :=
  match s with
  | [] => true
  | c :: s' =>
    (c <? 0x110000)%N &&
    match s' with
    | c' :: _ => negb (is_high c && is_low c')
    | [] => true
    end && text_ok s'
  end.

(** A [dict] of texts: no key twice. *)
Definition event_ok (e : event) : Prop :=
  NoDup (map fst e) ∧
  Forall (λ kv, text_ok kv.1 = true ∧ text_ok kv.2 = true) e.

(** What the decoder does with one [\uXXXX] escape of value [u] when the
    text after it is [r]: the body of that branch of [scanstring]. *)
Definition scan_unit (hi : option N) (u : N) (r : string)
  : option (pystr * string) :=
  match hi with
  | Some h =>
    if is_low u then emit (join_surrogates h u) (scanstring None r)
    else if is_high u then emit h (scanstring (Some u) r)
    else emit h (emit u (scanstring None r))
  | None =>
    if is_high u then scanstring (Some u) r
    else emit u (scanstring None r)
  end.

(** A text has a line feed in it. *)
Fixpoint has_newline (s : string) : bool :=
  match s with
  | EmptyString => false
  | String a r => (N_of_ascii a =? 10)%N || has_newline r
  end.

End Json.

(** ** The session: [websocket_call] (lines 28-138) *)

Module Session.
Import Json.

(** *** The session id (lines 37-39) *)

(** A [datetime], as [datetime.utcnow()] returns it. *)
Record datetime := mkDatetime {
  year : nat; month : nat; day : nat;
  hour : nat; minute : nat; second : nat; microsecond : nat }.

Definition digit (n : nat) : ascii := ascii_of_nat (48 + n mod 10).

(** [%m], [%d], [%H], [%M], [%S]: two digits, zero padded. *)
Definition pad2 (n : nat) : string :=
  String (digit (n / 10)) (String (digit n) EmptyString).

(** [%Y]: the year in decimal; four digits for the years 1000..9999, which
    are the ones [utcnow] returns. *)
Definition pad4 (n : nat) : string := (pad2 (n / 100) ++ pad2 n)%string.

(** [now.strftime("%Y%m%d%H%M%S")] *)
Definition strftime (now : datetime) : string :=
  (pad4 (year now) ++ pad2 (month now) ++ pad2 (day now) ++
   pad2 (hour now) ++ pad2 (minute now) ++ pad2 (second now))%string.

Definition conversation_name (session_id : string) : string :=
  ("conversation_" ++ session_id ++ ".wav")%string.

Definition transcript_name (session_id : string) : string :=
  ("transcript_" ++ session_id ++ ".txt")%string.

(** *** The agent settings (lines 64-78) *)

Record SettingsOptions := mkSettings {
  audio_input_encoding : string;
  audio_input_sample_rate : Z;
  audio_output_encoding : string;
  audio_output_sample_rate : Z;
  audio_output_container : string;
  agent_language : string;
  listen_provider_type : string;
  listen_provider_model : string;
  think_provider_type : string;
  think_provider_model : string;
  think_prompt : string;
  speak_provider_type : string;
  speak_provider_model : string;
  agent_greeting : string }.

Definition options : SettingsOptions :=
  {| audio_input_encoding := "linear16";
     audio_input_sample_rate := 24000;
     audio_output_encoding := "linear16";
     audio_output_sample_rate := 24000;
     audio_output_container := "wav";
     agent_language := "en";
     listen_provider_type := "deepgram";
     listen_provider_model := "nova-3";
     think_provider_type := "open_ai";
     think_provider_model := "gpt-4o-mini";
     think_prompt := "You are a friendly AI assistant.";
     speak_provider_type := "deepgram";
     speak_provider_model := "aura-2-thalia-en";
     agent_greeting := "Hello! How can I help you today?" |}.

(** *** The objects of a session *)

(** What the client is sent: [send_bytes(d)] and [send_json(obj)], the
    latter always [{"type": type, "data": data}]. *)
Inductive client_msg :=
| SendBytes (d : bytes)
| SendJson (type : string) (data : event).

(** What [connection.send] is called with. *)
Inductive agent_msg :=
| Audio (chunk : bytes)
| KeepAlive.

(** The handle [conv_file]. *)
Inductive file_state := Unopened | Opened | Closed.

(** The agent connection: created (line 63), with the two callbacks
    registered (lines 92-93), started with its options (line 95 returned
    true), finished (line 106). *)
Inductive conn_state :=
| NoConnection
| Created
| Registered
| Started (o : SettingsOptions)
| Finished.

(** Where a frame written to the recording came from. *)
Inductive source := FromClient | FromAgent.

(** The statement at which the relay left its loop. *)
Inductive site :=
| AtOpen | AtHeader | AtRecv | AtWriteClient | AtWriteAgent
| AtSendAudio | AtSendText | AtTranscriptOpen | AtTranscriptWrite.

(** The next statement of the relay coroutine, with the locals it holds.
    [R_Exit true w]: [WebSocketDisconnect] was raised at [w] and handled
    (lines 136-138); [R_Exit false w]: another exception was raised at [w]
    and left the function. *)
Inductive relay_pc :=
| R_Spawn                             (* line 111 *)
| R_Open                              (* line 114 *)
| R_Header                            (* line 115 *)
| R_Recv                              (* line 119 *)
| R_Put (data : bytes)                (* line 120 *)
| R_Write (data : bytes)              (* line 121 *)
| R_AgentPoll                         (* lines 124-125 *)
| R_AgentWrite (audio_chunk : bytes)  (* line 126 *)
| R_AgentSend (audio_chunk : bytes)   (* line 127 *)
| R_TextPoll                          (* lines 130-131 *)
| R_TextSend (transcript : event)     (* line 132 *)
| R_TextOpen (transcript : event)     (* line 133 *)
| R_TextWrite (transcript : event)    (* line 134 *)
| R_Exit (disconnect : bool) (w : site).

(** The next statement of [deepgram_agent_thread]. *)
Inductive agent_pc :=
| A_Unstarted
| A_Init                    (* lines 63-78 *)
| A_Spawn                   (* lines 80-84 *)
| A_Register                (* lines 86-93 *)
| A_Start                   (* line 95 *)
| A_Loop                    (* line 99 *)
| A_Get                     (* line 101 *)
| A_Send (chunk : bytes)    (* line 102 *)
| A_Finish                  (* line 106 *)
| A_Closed.

(** The next statement of the [keep_alive] thread. *)
Inductive keep_pc :=
| K_Unstarted
| K_Test                    (* line 81 *)
| K_Send                    (* line 82 *)
| K_Sleep                   (* line 83 *)
| K_Exit.

(** [threading.Event]: the flag, [set] and [is_set].  The program never
    calls [clear]. *)
Definition Event := bool.
Definition Event_new : Event := false.
Definition Event_set (e : Event) : Event := true.
Definition Event_is_set (e : Event) : bool := e.

(** The state of one session: the locals of [websocket_call] shared with
    its threads, the world around them (filesystem, client, backend,
    standard output), the three program counters, and the history the
    statements below are about ([observed], [drained], [conv_closes],
    [finishes] are written and never read by the program). *)
Record state := mkState {
  conversation_audio_file : string;
  transcript_file : string;
  client_audio_queue : list bytes;
  agent_audio_queue : list bytes;
  transcript_queue : list event;
  processing_complete : Event;
  fs : gmap string bytes;
  conv_file : file_state;
  conv_closes : nat;
  to_client : list client_msg;
  to_agent : list agent_msg;
  conn : conn_state;
  finishes : nat;
  stdout : list string;
  relay : relay_pc;
  agent : agent_pc;
  keep : keep_pc;
  observed : list (source * bytes);
  drained : list event }.

(** *** Field updates *)

Definition set_client_audio_queue (v : list bytes) (s : state) : state :=
  {| conversation_audio_file := conversation_audio_file s;
     transcript_file := transcript_file s; client_audio_queue := v;
     agent_audio_queue := agent_audio_queue s;
     transcript_queue := transcript_queue s;
     processing_complete := processing_complete s; fs := fs s;
     conv_file := conv_file s; conv_closes := conv_closes s;
     to_client := to_client s; to_agent := to_agent s; conn := conn s;
     finishes := finishes s; stdout := stdout s; relay := relay s;
     agent := agent s; keep := keep s; observed := observed s;
     drained := drained s |}.

Definition set_agent_audio_queue (v : list bytes) (s : state) : state :=
  {| conversation_audio_file := conversation_audio_file s;
     transcript_file := transcript_file s;
     client_audio_queue := client_audio_queue s; agent_audio_queue := v;
     transcript_queue := transcript_queue s;
     processing_complete := processing_complete s; fs := fs s;
     conv_file := conv_file s; conv_closes := conv_closes s;
     to_client := to_client s; to_agent := to_agent s; conn := conn s;
     finishes := finishes s; stdout := stdout s; relay := relay s;
     agent := agent s; keep := keep s; observed := observed s;
     drained := drained s |}.

Definition set_transcript_queue (v : list event) (s : state) : state :=
  {| conversation_audio_file := conversation_audio_file s;
     transcript_file := transcript_file s;
     client_audio_queue := client_audio_queue s;
     agent_audio_queue := agent_audio_queue s; transcript_queue := v;
     processing_complete := processing_complete s; fs := fs s;
     conv_file := conv_file s; conv_closes := conv_closes s;
     to_client := to_client s; to_agent := to_agent s; conn := conn s;
     finishes := finishes s; stdout := stdout s; relay := relay s;
     agent := agent s; keep := keep s; observed := observed s;
     drained := drained s |}.

Definition set_processing_complete (v : bool) (s : state) : state :=
  {| conversation_audio_file := conversation_audio_file s;
     transcript_file := transcript_file s;
     client_audio_queue := client_audio_queue s;
     agent_audio_queue := agent_audio_queue s;
     transcript_queue := transcript_queue s; processing_complete := v;
     fs := fs s; conv_file := conv_file s; conv_closes := conv_closes s;
     to_client := to_client s; to_agent := to_agent s; conn := conn s;
     finishes := finishes s; stdout := stdout s; relay := relay s;
     agent := agent s; keep := keep s; observed := observed s;
     drained := drained s |}.

Definition set_fs (v : gmap string bytes) (s : state) : state :=
  {| conversation_audio_file := conversation_audio_file s;
     transcript_file := transcript_file s;
     client_audio_queue := client_audio_queue s;
     agent_audio_queue := agent_audio_queue s;
     transcript_queue := transcript_queue s;
     processing_complete := processing_complete s; fs := v;
     conv_file := conv_file s; conv_closes := conv_closes s;
     to_client := to_client s; to_agent := to_agent s; conn := conn s;
     finishes := finishes s; stdout := stdout s; relay := relay s;
     agent := agent s; keep := keep s; observed := observed s;
     drained := drained s |}.

Definition set_conv_file (v : file_state) (s : state) : state :=
  {| conversation_audio_file := conversation_audio_file s;
     transcript_file := transcript_file s;
     client_audio_queue := client_audio_queue s;
     agent_audio_queue := agent_audio_queue s;
     transcript_queue := transcript_queue s;
     processing_complete := processing_complete s; fs := fs s;
     conv_file := v; conv_closes := conv_closes s; to_client := to_client s;
     to_agent := to_agent s; conn := conn s; finishes := finishes s;
     stdout := stdout s; relay := relay s; agent := agent s; keep := keep s;
     observed := observed s; drained := drained s |}.

Definition set_conv_closes (v : nat) (s : state) : state :=
  {| conversation_audio_file := conversation_audio_file s;
     transcript_file := transcript_file s;
     client_audio_queue := client_audio_queue s;
     agent_audio_queue := agent_audio_queue s;
     transcript_queue := transcript_queue s;
     processing_complete := processing_complete s; fs := fs s;
     conv_file := conv_file s; conv_closes := v; to_client := to_client s;
     to_agent := to_agent s; conn := conn s; finishes := finishes s;
     stdout := stdout s; relay := relay s; agent := agent s; keep := keep s;
     observed := observed s; drained := drained s |}.

Definition set_to_client (v : list client_msg) (s : state) : state :=
  {| conversation_audio_file := conversation_audio_file s;
     transcript_file := transcript_file s;
     client_audio_queue := client_audio_queue s;
     agent_audio_queue := agent_audio_queue s;
     transcript_queue := transcript_queue s;
     processing_complete := processing_complete s; fs := fs s;
     conv_file := conv_file s; conv_closes := conv_closes s; to_client := v;
     to_agent := to_agent s; conn := conn s; finishes := finishes s;
     stdout := stdout s; relay := relay s; agent := agent s; keep := keep s;
     observed := observed s; drained := drained s |}.

Definition set_to_agent (v : list agent_msg) (s : state) : state :=
  {| conversation_audio_file := conversation_audio_file s;
     transcript_file := transcript_file s;
     client_audio_queue := client_audio_queue s;
     agent_audio_queue := agent_audio_queue s;
     transcript_queue := transcript_queue s;
     processing_complete := processing_complete s; fs := fs s;
     conv_file := conv_file s; conv_closes := conv_closes s;
     to_client := to_client s; to_agent := v; conn := conn s;
     finishes := finishes s; stdout := stdout s; relay := relay s;
     agent := agent s; keep := keep s; observed := observed s;
     drained := drained s |}.

Definition set_conn (v : conn_state) (s : state) : state :=
  {| conversation_audio_file := conversation_audio_file s;
     transcript_file := transcript_file s;
     client_audio_queue := client_audio_queue s;
     agent_audio_queue := agent_audio_queue s;
     transcript_queue := transcript_queue s;
     processing_complete := processing_complete s; fs := fs s;
     conv_file := conv_file s; conv_closes := conv_closes s;
     to_client := to_client s; to_agent := to_agent s; conn := v;
     finishes := finishes s; stdout := stdout s; relay := relay s;
     agent := agent s; keep := keep s; observed := observed s;
     drained := drained s |}.

Definition set_finishes (v : nat) (s : state) : state :=
  {| conversation_audio_file := conversation_audio_file s;
     transcript_file := transcript_file s;
     client_audio_queue := client_audio_queue s;
     agent_audio_queue := agent_audio_queue s;
     transcript_queue := transcript_queue s;
     processing_complete := processing_complete s; fs := fs s;
     conv_file := conv_file s; conv_closes := conv_closes s;
     to_client := to_client s; to_agent := to_agent s; conn := conn s;
     finishes := v; stdout := stdout s; relay := relay s; agent := agent s;
     keep := keep s; observed := observed s; drained := drained s |}.

Definition set_stdout (v : list string) (s : state) : state :=
  {| conversation_audio_file := conversation_audio_file s;
     transcript_file := transcript_file s;
     client_audio_queue := client_audio_queue s;
     agent_audio_queue := agent_audio_queue s;
     transcript_queue := transcript_queue s;
     processing_complete := processing_complete s; fs := fs s;
     conv_file := conv_file s; conv_closes := conv_closes s;
     to_client := to_client s; to_agent := to_agent s; conn := conn s;
     finishes := finishes s; stdout := v; relay := relay s;
     agent := agent s; keep := keep s; observed := observed s;
     drained := drained s |}.

Definition set_relay (v : relay_pc) (s : state) : state :=
  {| conversation_audio_file := conversation_audio_file s;
     transcript_file := transcript_file s;
     client_audio_queue := client_audio_queue s;
     agent_audio_queue := agent_audio_queue s;
     transcript_queue := transcript_queue s;
     processing_complete := processing_complete s; fs := fs s;
     conv_file := conv_file s; conv_closes := conv_closes s;
     to_client := to_client s; to_agent := to_agent s; conn := conn s;
     finishes := finishes s; stdout := stdout s; relay := v;
     agent := agent s; keep := keep s; observed := observed s;
     drained := drained s |}.

Definition set_agent (v : agent_pc) (s : state) : state :=
  {| conversation_audio_file := conversation_audio_file s;
     transcript_file := transcript_file s;
     client_audio_queue := client_audio_queue s;
     agent_audio_queue := agent_audio_queue s;
     transcript_queue := transcript_queue s;
     processing_complete := processing_complete s; fs := fs s;
     conv_file := conv_file s; conv_closes := conv_closes s;
     to_client := to_client s; to_agent := to_agent s; conn := conn s;
     finishes := finishes s; stdout := stdout s; relay := relay s;
     agent := v; keep := keep s; observed := observed s;
     drained := drained s |}.

Definition set_keep (v : keep_pc) (s : state) : state :=
  {| conversation_audio_file := conversation_audio_file s;
     transcript_file := transcript_file s;
     client_audio_queue := client_audio_queue s;
     agent_audio_queue := agent_audio_queue s;
     transcript_queue := transcript_queue s;
     processing_complete := processing_complete s; fs := fs s;
     conv_file := conv_file s; conv_closes := conv_closes s;
     to_client := to_client s; to_agent := to_agent s; conn := conn s;
     finishes := finishes s; stdout := stdout s; relay := relay s;
     agent := agent s; keep := v; observed := observed s;
     drained := drained s |}.

Definition set_observed (v : list (source * bytes)) (s : state) : state :=
  {| conversation_audio_file := conversation_audio_file s;
     transcript_file := transcript_file s;
     client_audio_queue := client_audio_queue s;
     agent_audio_queue := agent_audio_queue s;
     transcript_queue := transcript_queue s;
     processing_complete := processing_complete s; fs := fs s;
     conv_file := conv_file s; conv_closes := conv_closes s;
     to_client := to_client s; to_agent := to_agent s; conn := conn s;
     finishes := finishes s; stdout := stdout s; relay := relay s;
     agent := agent s; keep := keep s; observed := v; drained := drained s |}.

Definition set_drained (v : list event) (s : state) : state :=
  {| conversation_audio_file := conversation_audio_file s;
     transcript_file := transcript_file s;
     client_audio_queue := client_audio_queue s;
     agent_audio_queue := agent_audio_queue s;
     transcript_queue := transcript_queue s;
     processing_complete := processing_complete s; fs := fs s;
     conv_file := conv_file s; conv_closes := conv_closes s;
     to_client := to_client s; to_agent := to_agent s; conn := conn s;
     finishes := finishes s; stdout := stdout s; relay := relay s;
     agent := agent s; keep := keep s; observed := observed s; drained := v |}.

(** *** Files *)

(** [open(name, "wb")]: the file is created or truncated. *)
Definition open_wb (name : string) (m : gmap string bytes) : gmap string bytes :=
  <[name := []]> m.

(** [open(name, "a")]: the file is created when it does not exist. *)
Definition open_a (name : string) (m : gmap string bytes) : gmap string bytes :=
  match m !! name with
  | Some _ => m
  | None => <[name := []]> m
  end.

(** [f.write(data)] on a handle positioned at the end of [name]: the
    content of the file once the handle is flushed or closed.  A write that
    raises is taken to have written nothing. *)
Definition write (name : string) (data : bytes) (m : gmap string bytes)
  : gmap string bytes :=
  <[name := default [] (m !! name) ++ data]> m.

(** The bytes of a text [str] written to a text-mode file: the strings
    written here are ASCII. *)
Definition encode (s : string) : bytes := list_byte_of_string s.

(** [json.dumps(transcript) + "\n"] *)
Definition transcript_line (transcript : event) : string :=
  (dumps transcript ++ String newline EmptyString)%string.

Definition saved_message (s : state) : string :=
  ("Conversation saved: " ++ conversation_audio_file s ++
   ", Transcript: " ++ transcript_file s)%string.

Definition agent_error_message : string := "Deepgram agent thread error:".

(** *** The steps *)

(** What a statement gets from outside: it returns ([Done]), returns a
    frame ([Got]), raises [WebSocketDisconnect] ([Disconnect]), or raises
    another exception ([Fault]: [OSError] from a file, a transport error
    from the socket). *)
Inductive outcome :=
| Done
| Got (d : bytes)
| Disconnect
| Fault.

(** What a call of the agent thread does: it returns, returns false
    ([connection.start] only), or raises. *)
Inductive call :=
| Ok
| Refused
| Raised.

(** Leaving the [with] block of line 114 closes [conv_file]. *)
Definition close_conv (s : state) : state :=
  set_conv_file Closed (set_conv_closes (S (conv_closes s)) s).

(** Lines 136-138, then the end of the [with] block. *)
Definition on_disconnect (w : site) (s : state) : state :=
  let s := set_processing_complete (Event_set (processing_complete s)) s in
  let s := set_stdout (stdout s ++ [saved_message s]) s in
  set_relay (R_Exit true w) (close_conv s).

(** An exception other than [WebSocketDisconnect] raised inside the [with]
    block: no handler, the block closes the file, the exception leaves
    [websocket_call]. *)
Definition on_fault (w : site) (s : state) : state :=
  set_relay (R_Exit false w) (close_conv s).

(** One statement of the relay. An outcome the statement cannot have
    leaves the state as it is. *)
Definition relay_step (s : state) (o : outcome) : state :=
  match relay s, o with
  | R_Spawn, Done =>
      set_relay R_Open (set_agent A_Init s)
  | R_Open, Done =>
      set_relay R_Header
        (set_conv_file Opened
           (set_fs (open_wb (conversation_audio_file s) (fs s)) s))
  | R_Open, Fault =>
      set_relay (R_Exit false AtOpen) s
  | R_Header, Done =>
      match Wav.create_wav_header_default with
      | Some header =>
          set_relay R_Recv
            (set_fs (write (conversation_audio_file s) header (fs s)) s)
      | None => on_fault AtHeader s
      end
  | R_Header, Fault => on_fault AtHeader s
  | R_Recv, Got data =>
      set_relay (R_Put data)
        (set_observed (observed s ++ [(FromClient, data)]) s)
  | R_Recv, Disconnect => on_disconnect AtRecv s
  | R_Recv, Fault => on_fault AtRecv s
  | R_Put data, Done =>
      set_relay (R_Write data)
        (set_client_audio_queue (client_audio_queue s ++ [data]) s)
  | R_Write data, Done =>
      set_relay R_AgentPoll
        (set_fs (write (conversation_audio_file s) data (fs s)) s)
  | R_Write data, Fault => on_fault AtWriteClient s
  | R_AgentPoll, Done =>
      match agent_audio_queue s with
      | [] => set_relay R_TextPoll s
      | audio_chunk :: q =>
          set_relay (R_AgentWrite audio_chunk)
            (set_observed (observed s ++ [(FromAgent, audio_chunk)])
               (set_agent_audio_queue q s))
      end
  | R_AgentWrite audio_chunk, Done =>
      set_relay (R_AgentSend audio_chunk)
        (set_fs (write (conversation_audio_file s) audio_chunk (fs s)) s)
  | R_AgentWrite audio_chunk, Fault => on_fault AtWriteAgent s
  | R_AgentSend audio_chunk, Done =>
      set_relay R_AgentPoll
        (set_to_client (to_client s ++ [SendBytes audio_chunk]) s)
  | R_AgentSend audio_chunk, Disconnect => on_disconnect AtSendAudio s
  | R_AgentSend audio_chunk, Fault => on_fault AtSendAudio s
  | R_TextPoll, Done =>
      match transcript_queue s with
      | [] => set_relay R_Recv s
      | transcript :: q =>
          set_relay (R_TextSend transcript)
            (set_drained (drained s ++ [transcript])
               (set_transcript_queue q s))
      end
  | R_TextSend transcript, Done =>
      set_relay (R_TextOpen transcript)
        (set_to_client (to_client s ++ [SendJson "transcript" transcript]) s)
  | R_TextSend transcript, Disconnect => on_disconnect AtSendText s
  | R_TextSend transcript, Fault => on_fault AtSendText s
  | R_TextOpen transcript, Done =>
      set_relay (R_TextWrite transcript)
        (set_fs (open_a (transcript_file s) (fs s)) s)
  | R_TextOpen transcript, Fault => on_fault AtTranscriptOpen s
  | R_TextWrite transcript, Done =>
      set_relay R_TextPoll
        (set_fs (write (transcript_file s)
                   (encode (transcript_line transcript)) (fs s)) s)
  | R_TextWrite transcript, Fault => on_fault AtTranscriptWrite s
  | _, _ => s
  end.

(** Lines 107-109: the handler of the agent thread. *)
Definition agent_except (s : state) : state :=
  let s := set_stdout (stdout s ++ [agent_error_message]) s in
  set_agent A_Closed
    (set_processing_complete (Event_set (processing_complete s)) s).

(** One statement of [deepgram_agent_thread]. *)
Definition agent_step (s : state) (c : call) : state :=
  match agent s, c with
  | A_Init, Ok => set_agent A_Spawn (set_conn Created s)
  | A_Spawn, Ok => set_agent A_Register (set_keep K_Test s)
  | A_Register, Ok => set_agent A_Start (set_conn Registered s)
  | A_Start, Ok => set_agent A_Loop (set_conn (Started options) s)
  | A_Start, Refused =>
      set_agent A_Closed
        (set_processing_complete (Event_set (processing_complete s)) s)
  | A_Loop, Ok =>
      if Event_is_set (processing_complete s)
      then set_agent A_Finish s
      else set_agent A_Get s
  | A_Get, Ok =>
      match client_audio_queue s with
      | [] => set_agent A_Loop s
      | chunk :: q => set_agent (A_Send chunk) (set_client_audio_queue q s)
      end
  | A_Send chunk, Ok =>
      set_agent A_Loop (set_to_agent (to_agent s ++ [Audio chunk]) s)
  | A_Finish, Ok =>
      set_agent A_Closed
        (set_conn Finished (set_finishes (S (finishes s)) s))
  | A_Unstarted, _ => s
  | A_Closed, _ => s
  | A_Loop, Raised => s
  | A_Get, Raised => s
  | _, Raised => agent_except s
  | _, Refused => s
  end.

(** One statement of [keep_alive]; an exception raised by
    [connection.send] ends the thread. *)
Definition keep_step (s : state) (ok : bool) : state :=
  match keep s with
  | K_Unstarted => s
  | K_Test =>
      if Event_is_set (processing_complete s)
      then set_keep K_Exit s
      else set_keep K_Send s
  | K_Send =>
      if ok then set_keep K_Sleep (set_to_agent (to_agent s ++ [KeepAlive]) s)
      else set_keep K_Exit s
  | K_Sleep => set_keep K_Test s
  | K_Exit => s
  end.

Definition is_started (c : conn_state) : bool :=
  match c with
  | Started _ => true
  | _ => false
  end.

(** The SDK can call the callbacks from the moment they are registered,
    [connection.start] still running, until the connection is finished. *)
Definition callbacks_on (c : conn_state) : bool :=
  match c with
  | Registered | Started _ => true
  | _ => false
  end.

(** [on_audio_data] (lines 86-87), called by the SDK. *)
Definition on_audio_data (s : state) (data : bytes) : state :=
  if callbacks_on (conn s)
  then set_agent_audio_queue (agent_audio_queue s ++ [data]) s
  else s.

(** [on_conversation_text] (lines 89-90): [conversation_text.__dict__] is
    the event. *)
Definition on_conversation_text (s : state) (conversation_text : event) : state :=
  if callbacks_on (conn s)
  then set_transcript_queue (transcript_queue s ++ [conversation_text]) s
  else s.

(** One step of the session: which thread runs its next statement, and
    what the outside answers. *)
Inductive action :=
| Relay (o : outcome)
| Agent (c : call)
| Keep (ok : bool)
| OnAudio (data : bytes)
| OnText (conversation_text : event).

Definition step (s : state) (a : action) : state :=
  match a with
  | Relay o => relay_step s o
  | Agent c => agent_step s c
  | Keep ok => keep_step s ok
  | OnAudio data => on_audio_data s data
  | OnText e => on_conversation_text s e
  end.

(** A run: the steps of an interleaving, in order. *)
Definition run (script : list action) (s : state) : state :=
  foldl step s script.

(** Lines 30-39: the state after [accept], with the clock read at line 37
    and the files already on disk.  [agent_id] is the path parameter. *)
Definition websocket_call (agent_id : string) (now : datetime)
    (disk : gmap string bytes) : state :=
  let session_id := strftime now in
  {| conversation_audio_file := conversation_name session_id;
     transcript_file := transcript_name session_id;
     client_audio_queue := [];
     agent_audio_queue := [];
     transcript_queue := [];
     processing_complete := Event_new;
     fs := disk;
     conv_file := Unopened;
     conv_closes := 0;
     to_client := [];
     to_agent := [];
     conn := NoConnection;
     finishes := 0;
     stdout := [];
     relay := R_Spawn;
     agent := A_Unstarted;
     keep := K_Unstarted;
     observed := [];
     drained := [] |}.

(** *** What the statements below speak about *)

(** The audio bytes of a sequence of frames. *)
Definition payload (l : list (source * bytes)) : bytes := concat (map snd l).

(** The frame the relay holds between obtaining it and writing it to the
    recording. *)
Definition in_hand (pc : relay_pc) : list (source * bytes) :=
  match pc with
  | R_Put d | R_Write d => [(FromClient, d)]
  | R_AgentWrite c => [(FromAgent, c)]
  | _ => []
  end.

(** The header write of line 115 has run. *)
Definition header_present (pc : relay_pc) : bool :=
  match pc with
  | R_Spawn | R_Open | R_Header | R_Exit _ AtOpen | R_Exit _ AtHeader => false
  | _ => true
  end.

(** An audio write (line 121 or 126) raised. *)
Definition write_failed (pc : relay_pc) : bool :=
  match pc with
  | R_Exit _ AtWriteClient | R_Exit _ AtWriteAgent => true
  | _ => false
  end.

Definition recording (pc : relay_pc) : bool :=
  header_present pc && negb (write_failed pc).

(** The content of the recording and of the transcript. *)
Definition conv_content (s : state) : option bytes :=
  fs s !! conversation_audio_file s.

Definition transcript_content (s : state) : option bytes :=
  fs s !! transcript_file s.

(** The JSON messages the client was sent: type and data of each. *)
Definition sent_json (l : list client_msg) : list (string * event) :=
  omap (λ m, match m with
             | SendJson t d => Some (t, d)
             | SendBytes _ => None
             end) l.

(** The audio messages the client was sent. *)
Definition sent_bytes (l : list client_msg) : list bytes :=
  omap (λ m, match m with
             | SendBytes d => Some d
             | SendJson _ _ => None
             end) l.

(** The audio chunks forwarded to the backend. *)
Definition forwarded (l : list agent_msg) : list bytes :=
  omap (λ m, match m with
             | Audio chunk => Some chunk
             | KeepAlive => None
             end) l.

(** The bytes of the transcript lines of a sequence of events. *)
Definition lines (es : list event) : bytes :=
  concat (map (λ e, encode (transcript_line e)) es).

(** The relay is not between draining an event and appending its line,
    and was not stopped there. *)
Definition text_settled (pc : relay_pc) : bool :=
  match pc with
  | R_TextSend _ | R_TextOpen _ | R_TextWrite _
  | R_Exit _ AtSendText | R_Exit _ AtTranscriptOpen
  | R_Exit _ AtTranscriptWrite => false
  | _ => true
  end.

(** Reading a transcript back: one [json.loads] per line of the file. *)
Definition read_transcript (content : bytes) : option (list event) :=
  mapM loads (readlines (string_of_list_byte content)).

(** The relay coroutine has ended. *)
Definition exited (pc : relay_pc) : bool :=
  match pc with
  | R_Exit _ _ => true
  | _ => false
  end.

(** The relay has not got past [open] (line 114). *)
Definition before_open (pc : relay_pc) : bool :=
  match pc with
  | R_Spawn | R_Open | R_Exit _ AtOpen => true
  | _ => false
  end.

(** The statements that append to a file of the recorder, each with the
    site of its failure: the audio writes of lines 121 and 126, and the
    transcript append of lines 133-134. *)
Definition append_site (pc : relay_pc) : option site :=
  match pc with
  | R_Write _ => Some AtWriteClient
  | R_AgentWrite _ => Some AtWriteAgent
  | R_TextOpen _ => Some AtTranscriptOpen
  | R_TextWrite _ => Some AtTranscriptWrite
  | _ => None
  end.

(** The JSON messages of a sequence of events, as line 132 sends them. *)
Definition transcript_messages (es : list event) : list (string * event) :=
  map (pair "transcript") es.

End Session.

Import Json Session.

(** ** Invariants of a session *)

(** The fields only the relay writes. *)
Definition relay_view (s : state) :=
  (conversation_audio_file s, transcript_file s, relay s, fs s, observed s,
   drained s, to_client s, conv_file s, conv_closes s).

(** The fields only the agent thread and its keep-alive thread write,
    once the agent thread is started. *)
Definition agent_view (s : state) :=
  (agent s, keep s, conn s, finishes s, to_agent s).

(** The recording: nothing before the header, then the header [h] and the
    frames obtained so far, the one in hand apart. *)
Definition rec_inv (sid : string) (h : bytes) (s : state) : Prop :=
  conversation_audio_file s = conversation_name sid ∧
  transcript_file s = transcript_name sid ∧
  match relay s with
  | R_Spawn | R_Open | R_Exit _ AtOpen => observed s = []
  | R_Header | R_Exit _ AtHeader =>
      conv_content s = Some [] ∧ observed s = []
  | R_Exit _ AtWriteClient | R_Exit _ AtWriteAgent =>
      ∃ w fr, observed s = w ++ [fr] ∧ conv_content s = Some (h ++ payload w)
  | pc =>
      ∃ w, observed s = w ++ in_hand pc ∧ conv_content s = Some (h ++ payload w)
  end.

(** The transcript: the bytes [old] the file had, then one line per event
    drained; the event in hand has its message sent before its line is
    appended. *)
Definition text_inv (old : bytes) (s : state) : Prop :=
  conversation_audio_file s ≠ transcript_file s ∧
  match relay s with
  | R_TextSend e =>
      ∃ w, drained s = w ++ [e] ∧
        sent_json (to_client s) = transcript_messages w ∧
        default [] (transcript_content s) = old ++ lines w
  | R_Exit _ AtSendText =>
      ∃ w e, drained s = w ++ [e] ∧
        sent_json (to_client s) = transcript_messages w ∧
        default [] (transcript_content s) = old ++ lines w
  | R_TextOpen e | R_TextWrite e =>
      ∃ w, drained s = w ++ [e] ∧
        sent_json (to_client s) = transcript_messages (w ++ [e]) ∧
        default [] (transcript_content s) = old ++ lines w
  | R_Exit _ AtTranscriptOpen | R_Exit _ AtTranscriptWrite =>
      ∃ w e, drained s = w ++ [e] ∧
        sent_json (to_client s) = transcript_messages (w ++ [e]) ∧
        default [] (transcript_content s) = old ++ lines w
  | _ =>
      sent_json (to_client s) = transcript_messages (drained s) ∧
      default [] (transcript_content s) = old ++ lines (drained s)
  end.

(** The recording is closed once, by the end of the [with] block. *)
Definition closes_inv (s : state) : Prop :=
  match relay s with
  | R_Spawn | R_Open | R_Exit _ AtOpen =>
      conv_closes s = 0%nat ∧ conv_file s = Unopened
  | R_Exit _ _ => conv_closes s = 1%nat ∧ conv_file s = Closed
  | _ => conv_closes s = 0%nat ∧ conv_file s = Opened
  end.

(** The agent thread has not run before line 111, and [finish] is called
    once, at the end of the thread. *)
Definition finish_inv (s : state) : Prop :=
  (relay s = R_Spawn → agent s = A_Unstarted) ∧
  match agent s with
  | A_Closed => (finishes s ≤ 1)%nat
  | _ => finishes s = 0%nat
  end.

(** Up to the handshake nothing is forwarded and the connection is not
    open. *)
Definition unconnected_inv (s : state) : Prop :=
  (relay s = R_Spawn → agent s = A_Unstarted) ∧
  match agent s with
  | A_Unstarted | A_Init | A_Spawn | A_Register | A_Start =>
      forwarded (to_agent s) = [] ∧ is_started (conn s) = false
  | _ => True
  end.

(** After a failed handshake. *)
Definition closed_inv (s : state) : Prop :=
  relay s ≠ R_Spawn ∧ agent s = A_Closed ∧ forwarded (to_agent s) = [] ∧
  is_started (conn s) = false ∧ processing_complete s = true ∧
  finishes s = 0%nat.

(** Until the recording is open the relay has done nothing but start the
    agent thread. *)
Definition early_inv (disk : gmap string bytes) (s : state) : Prop :=
  (relay s = R_Spawn → agent s = A_Unstarted) ∧
  (relay s ≠ R_Spawn → agent s ≠ A_Unstarted) ∧
  (before_open (relay s) = true →
   fs s = disk ∧ observed s = [] ∧ drained s = [] ∧ to_client s = [] ∧
   conv_file s = Unopened ∧ client_audio_queue s = [] ∧
   forwarded (to_agent s) = [] ∧
   match agent s with
   | A_Send _ => False
   | _ => True
   end).

(** Which of the two files exist. *)
Definition files_inv (disk : gmap string bytes) (s : state) : Prop :=
  conversation_audio_file s ≠ transcript_file s ∧
  (before_open (relay s) = false → is_Some (conv_content s)) ∧
  match relay s with
  | R_TextSend _ | R_TextOpen _
  | R_Exit _ AtSendText | R_Exit _ AtTranscriptOpen =>
      ∃ w e, drained s = w ++ [e] ∧
        (w = [] → transcript_content s = disk !! transcript_file s) ∧
        (w ≠ [] → is_Some (transcript_content s))
  | R_TextWrite _ | R_Exit _ AtTranscriptWrite =>
      (∃ w e, drained s = w ++ [e]) ∧ is_Some (transcript_content s)
  | _ =>
      (drained s = [] → transcript_content s = disk !! transcript_file s) ∧
      (drained s ≠ [] → is_Some (transcript_content s))
  end.

(** ** A sample session

    The end-to-end scenario of the specification: the client sends
    [01 02], the agent emits the audio frame [AA BB] and the event
    [{"role": "assistant", "content": "hi"}], the client sends [03 04] and
    disconnects. *)

Definition now0 : datetime := mkDatetime 2024 3 7 9 5 1 42.

(** [{"role": "assistant", "content": "hi"}] *)
Definition hi_event : event :=
  [([114; 111; 108; 101], [97; 115; 115; 105; 115; 116; 97; 110; 116])%N;
   ([99; 111; 110; 116; 101; 110; 116], [104; 105])%N].

(** A text between double quotes. *)
Definition quoted (s : string) : string :=
  String quote (s ++ String quote EmptyString)%string.

Definition scenario : list action :=
  [Relay Done; Agent Ok; Agent Ok; Agent Ok; Agent Ok; Relay Done; Relay Done;
   Relay (Got [x01; x02]); Relay Done; OnAudio [xaa; xbb]; OnText hi_event;
   Relay Done; Relay Done; Relay Done; Relay Done; Relay Done; Relay Done;
   Relay Done; Relay Done; Relay Done; Relay Done;
   Relay (Got [x03; x04]); Relay Done; Relay Done; Relay Done; Relay Done;
   Relay Disconnect].

(** * Part II: the properties *)

(** ** Facts about [to_bytes] *)

Lemma length_le_bytes v n : length (le_bytes v n) = n.
Proof. revert v. induction n as [|n IH]; intros v; simpl; [done|]. by rewrite IH. Qed.

Lemma to_bytes_Some v n :
  0 <= v < 256 ^ Z.of_nat n → to_bytes v n = Some (le_bytes v n).
Proof.
  intros [H0 H1]. unfold to_bytes.
  destruct (Z.leb_spec 0 v); [|lia].
  destruct (Z.ltb_spec v (256 ^ Z.of_nat n)); [done|lia].
Qed.

Lemma to_bytes_None v n :
  ¬ (0 <= v < 256 ^ Z.of_nat n) → to_bytes v n = None.
Proof.
  intros H. unfold to_bytes.
  destruct (Z.leb_spec 0 v); [|done].
  destruct (Z.ltb_spec v (256 ^ Z.of_nat n)); [lia|done].
Qed.

Lemma to_bytes_length v n b : to_bytes v n = Some b → length b = n.
Proof.
  unfold to_bytes. case_match; [|done]. intros [= <-]. apply length_le_bytes.
Qed.

Lemma list_length_2 {A} (l : list A) : length l = 2%nat → ∃ a b, l = [a; b].
Proof. destruct l as [|a [|b [|? ?]]]; try done. eauto. Qed.

Lemma list_length_4 {A} (l : list A) :
  length l = 4%nat → ∃ a b c d, l = [a; b; c; d].
Proof. destruct l as [|a [|b [|c [|d [|? ?]]]]]; try done. eauto 6. Qed.

Section WavFacts.
Import Wav.

(** The shape of every header the function returns. *)
Lemma create_wav_header_shape sr bps ch h :
  create_wav_header sr bps ch = Some h →
  ∃ c s r a p,
    to_bytes ch 2 = Some c ∧ to_bytes sr 4 = Some s ∧
    to_bytes (byte_rate sr bps ch) 4 = Some r ∧
    to_bytes (block_align bps ch) 2 = Some a ∧
    to_bytes bps 2 = Some p ∧
    h = RIFF ++ [x24; x00; x00; x00] ++ WAVE ++ fmt_ ++
        [x10; x00; x00; x00] ++ [x01; x00] ++ c ++ s ++ r ++ a ++ p ++
        data ++ [x00; x00; x00; x00].
Proof.
  unfold create_wav_header. cbn [mbind option_bind].
  change (to_bytes 36 4) with (Some [x24; x00; x00; x00]).
  change (to_bytes 16 4) with (Some [x10; x00; x00; x00]).
  change (to_bytes 1 2) with (Some [x01; x00]).
  change (to_bytes 0 4) with (Some [x00; x00; x00; x00]).
  cbn [mbind option_bind].
  destruct (to_bytes ch 2) as [c|] eqn:Hc; [|done].
  destruct (to_bytes sr 4) as [s|] eqn:Hs; [|done].
  destruct (to_bytes (byte_rate sr bps ch) 4) as [r|] eqn:Hr; [|done].
  destruct (to_bytes (block_align bps ch) 2) as [a|] eqn:Ha; [|done].
  destruct (to_bytes bps 2) as [p|] eqn:Hp; [|done].
  cbn [mbind option_bind]. intros [= <-].
  exists c, s, r, a, p. repeat (split; [done|]).
  destruct (list_length_2 c (to_bytes_length _ _ _ Hc)) as (?&?&->).
  destruct (list_length_4 s (to_bytes_length _ _ _ Hs)) as (?&?&?&?&->).
  destruct (list_length_4 r (to_bytes_length _ _ _ Hr)) as (?&?&?&?&->).
  destruct (list_length_2 a (to_bytes_length _ _ _ Ha)) as (?&?&->).
  destruct (list_length_2 p (to_bytes_length _ _ _ Hp)) as (?&?&->).
  reflexivity.
Qed.

(** The call returns exactly when every field fits. *)
Lemma create_wav_header_is_Some sr bps ch :
  fields_fit sr bps ch → is_Some (create_wav_header sr bps ch).
Proof.
  intros (Hc & Hs & Hr & Ha & Hp).
  unfold create_wav_header. cbn [mbind option_bind].
  change (to_bytes 36 4) with (Some [x24; x00; x00; x00]).
  change (to_bytes 16 4) with (Some [x10; x00; x00; x00]).
  change (to_bytes 1 2) with (Some [x01; x00]).
  change (to_bytes 0 4) with (Some [x00; x00; x00; x00]).
  cbn [mbind option_bind].
  rewrite (to_bytes_Some ch 2) by (change (256 ^ Z.of_nat 2) with (2 ^ 16); done).
  rewrite (to_bytes_Some sr 4) by (change (256 ^ Z.of_nat 4) with (2 ^ 32); done).
  rewrite (to_bytes_Some (byte_rate sr bps ch) 4)
    by (change (256 ^ Z.of_nat 4) with (2 ^ 32); done).
  rewrite (to_bytes_Some (block_align bps ch) 2)
    by (change (256 ^ Z.of_nat 2) with (2 ^ 16); done).
  rewrite (to_bytes_Some bps 2) by (change (256 ^ Z.of_nat 2) with (2 ^ 16); done).
  cbn [mbind option_bind]. eauto.
Qed.

Lemma create_wav_header_length sr bps ch h :
  create_wav_header sr bps ch = Some h → length h = 44%nat.
Proof.
  intros (c & s & r & a & p & Hc & Hs & Hr & Ha & Hp & ->)%create_wav_header_shape.
  rewrite !length_app.
  rewrite (to_bytes_length _ _ _ Hc), (to_bytes_length _ _ _ Hs),
    (to_bytes_length _ _ _ Hr), (to_bytes_length _ _ _ Ha),
    (to_bytes_length _ _ _ Hp). reflexivity.
Qed.

End WavFacts.

(** ** The WAV header: C4 *)

Section WavClaims.
Import Wav.

(** C4, as the code has it. For parameters within the constraints of the
    specification whose values fit the fields they are written to, the
    header is returned, is 44 bytes long, has its "remaining size" field
    (bytes 4..8) set to [(36).to_bytes(4, 'little')], that is 36 and not
    zero, and has its "data size" field (bytes 40..44) set to zero. *)
Theorem create_wav_header_size_fields sample_rate bits_per_sample channels :
  params_ok sample_rate bits_per_sample channels →
  fields_fit sample_rate bits_per_sample channels →
  ∃ h, create_wav_header sample_rate bits_per_sample channels = Some h ∧
       length h = 44%nat ∧
       Some (riff_size_field h) = to_bytes 36 4 ∧
       riff_size_field h = [x24; x00; x00; x00] ∧
       data_size_field h = [x00; x00; x00; x00].
Proof.
  intros _ Hfit.
  destruct (create_wav_header_is_Some _ _ _ Hfit) as [h Hh].
  exists h. split; [done|]. split; [by eapply create_wav_header_length|].
  destruct (create_wav_header_shape _ _ _ _ Hh)
    as (c & s & r & a & p & Hc & Hs & Hr & Ha & Hp & ->).
  destruct (list_length_2 c (to_bytes_length _ _ _ Hc)) as (?&?&->).
  destruct (list_length_4 s (to_bytes_length _ _ _ Hs)) as (?&?&?&?&->).
  destruct (list_length_4 r (to_bytes_length _ _ _ Hr)) as (?&?&?&?&->).
  destruct (list_length_2 a (to_bytes_length _ _ _ Ha)) as (?&?&->).
  destruct (list_length_2 p (to_bytes_length _ _ _ Hp)) as (?&?&->).
  by repeat split.
Qed.

(** The defaults of the signature meet the hypotheses. *)
Lemma create_wav_header_size_fields_witness :
  params_ok 24000 16 1 ∧ fields_fit 24000 16 1 ∧
  ∃ h, create_wav_header 24000 16 1 = Some h ∧
       length h = 44%nat ∧
       Some (riff_size_field h) = to_bytes 36 4 ∧
       riff_size_field h = [x24; x00; x00; x00] ∧
       data_size_field h = [x00; x00; x00; x00].
Proof.
  assert (params_ok 24000 16 1) as Hp by (repeat split; lia).
  assert (fields_fit 24000 16 1) as Hf by (unfold fields_fit; vm_compute; intuition discriminate).
  split; [exact Hp|]. split; [exact Hf|].
  exact (create_wav_header_size_fields 24000 16 1 Hp Hf).
Defined.

(** At the defaults 24000, 16, 1, bytes 4..8 of the header are
    [24 00 00 00], not zero. *)
Lemma riff_size_field_not_zero :
  params_ok 24000 16 1 ∧
  ∃ h, create_wav_header 24000 16 1 = Some h ∧
       riff_size_field h = [x24; x00; x00; x00] ∧
       riff_size_field h ≠ [x00; x00; x00; x00] ∧
       data_size_field h = [x00; x00; x00; x00].
Proof.
  split; [repeat split; lia|]. eexists. split; [reflexivity|].
  split; [reflexivity|]. split; [discriminate|reflexivity].
Qed.

(** Why the fields must fit: within the stated constraints
    [channels.to_bytes(2, 'little')] raises for 65536 channels. *)
Lemma create_wav_header_overflow :
  params_ok 24000 16 65536 ∧ create_wav_header 24000 16 65536 = None.
Proof. split; [repeat split; lia | reflexivity]. Qed.

End WavClaims.

(** ** Runs *)

Lemma run_invariant (P : state → Prop) script s :
  P s → (∀ s a, P s → P (step s a)) → P (run script s).
Proof.
  intros H0 Hstep. revert s H0. unfold run.
  induction script as [|a script IH]; intros s H0; simpl; [done|].
  apply IH, Hstep, H0.
Qed.

Ltac sim :=
  cbn [conversation_audio_file transcript_file client_audio_queue
       agent_audio_queue transcript_queue processing_complete fs conv_file
       conv_closes to_client to_agent conn finishes stdout relay agent keep
       observed drained
       set_client_audio_queue set_agent_audio_queue set_transcript_queue
       set_processing_complete set_fs set_conv_file set_conv_closes
       set_to_client set_to_agent set_conn set_finishes set_stdout set_relay
       set_agent set_keep set_observed set_drained
       Event_set Event_is_set Event_new in_hand] in *.

Lemma agent_step_relay_view s c : relay_view (agent_step s c) = relay_view s.
Proof.
  unfold agent_step, agent_except.
  destruct (agent s), c; repeat case_match; reflexivity.
Qed.

Lemma keep_step_relay_view s ok : relay_view (keep_step s ok) = relay_view s.
Proof. unfold keep_step. destruct (keep s), ok; repeat case_match; reflexivity. Qed.

Lemma on_audio_data_relay_view s d : relay_view (on_audio_data s d) = relay_view s.
Proof. unfold on_audio_data. case_match; reflexivity. Qed.

Lemma on_conversation_text_relay_view s e :
  relay_view (on_conversation_text s e) = relay_view s.
Proof. unfold on_conversation_text. case_match; reflexivity. Qed.

Lemma step_relay_view s a :
  (∀ o, a ≠ Relay o) → relay_view (step s a) = relay_view s.
Proof.
  destruct a; intros H; simpl.
  - by destruct (H o).
  - apply agent_step_relay_view.
  - apply keep_step_relay_view.
  - apply on_audio_data_relay_view.
  - apply on_conversation_text_relay_view.
Qed.

Lemma step_relay_other s a : (∀ o, a ≠ Relay o) → relay (step s a) = relay s.
Proof. intros H. by pose proof (step_relay_view s a H) as [= _ _ ? _ _ _ _ _ _]. Qed.

Lemma relay_step_names s o :
  conversation_audio_file (relay_step s o) = conversation_audio_file s ∧
  transcript_file (relay_step s o) = transcript_file s.
Proof.
  unfold relay_step, on_disconnect, on_fault, close_conv.
  destruct (relay s) as [| | | | | | | | | | | | |? []], o;
    repeat case_match; split; reflexivity.
Qed.

Lemma step_names s a :
  conversation_audio_file (step s a) = conversation_audio_file s ∧
  transcript_file (step s a) = transcript_file s.
Proof.
  destruct a as [o| | | |]; [apply relay_step_names|..].
  all: match goal with
       | |- context [step ?s ?a] =>
           assert (relay_view (step s a) = relay_view s) as [= H1 H2 _ _ _ _ _ _ _]
             by (apply step_relay_view; intros ? [=])
       end; split; assumption.
Qed.

Lemma run_names script s :
  conversation_audio_file (run script s) = conversation_audio_file s ∧
  transcript_file (run script s) = transcript_file s.
Proof.
  apply (run_invariant (λ s', conversation_audio_file s' = conversation_audio_file s ∧
    transcript_file s' = transcript_file s)); [done|].
  intros s' a [H1 H2]. destruct (step_names s' a). split; congruence.
Qed.

Lemma names_differ sid : conversation_name sid ≠ transcript_name sid.
Proof. unfold conversation_name, transcript_name. simpl. intros [=]. Qed.

(** ** The relay after it has left *)

Lemma relay_step_exit s o b w : relay s = R_Exit b w → relay_step s o = s.
Proof. intros H. unfold relay_step. rewrite H. by destruct o. Qed.

Lemma step_exit s a b w : relay s = R_Exit b w → relay (step s a) = R_Exit b w.
Proof.
  intros H. destruct a as [o| | | |];
    [cbn [step]; by rewrite (relay_step_exit s o b w)|..];
    (rewrite step_relay_other; [exact H | intros ? [=]]).
Qed.

Lemma run_exit script s b w :
  relay s = R_Exit b w → relay (run script s) = R_Exit b w.
Proof.
  intros H. apply (run_invariant (λ s, relay s = R_Exit b w)); [done|].
  intros. by apply step_exit.
Qed.

(** ** Files *)

Lemma lookup_write_eq name d (m : gmap string bytes) c :
  m !! name = Some c → write name d m !! name = Some (c ++ d).
Proof. intros H. unfold write. by rewrite lookup_insert_eq, H. Qed.

Lemma lookup_write_ne name name' d (m : gmap string bytes) :
  name ≠ name' → write name d m !! name' = m !! name'.
Proof. intros H. unfold write. by rewrite lookup_insert_ne. Qed.

Lemma lookup_open_a_ne name name' (m : gmap string bytes) :
  name ≠ name' → open_a name m !! name' = m !! name'.
Proof. intros H. unfold open_a. case_match; [done|]. by rewrite lookup_insert_ne. Qed.

Lemma lookup_open_wb_eq name (m : gmap string bytes) :
  open_wb name m !! name = Some [].
Proof. unfold open_wb. by rewrite lookup_insert_eq. Qed.

Lemma lookup_open_wb_ne name name' (m : gmap string bytes) :
  name ≠ name' → open_wb name m !! name' = m !! name'.
Proof. intros H. unfold open_wb. by rewrite lookup_insert_ne. Qed.

Lemma default_open_a name (m : gmap string bytes) :
  default [] (open_a name m !! name) = default [] (m !! name).
Proof.
  unfold open_a. destruct (m !! name) eqn:E; [by rewrite E|].
  by rewrite lookup_insert_eq.
Qed.

Lemma default_write name d (m : gmap string bytes) :
  default [] (write name d m !! name) = default [] (m !! name) ++ d.
Proof. unfold write. by rewrite lookup_insert_eq. Qed.

Lemma is_Some_write name d (m : gmap string bytes) : is_Some (write name d m !! name).
Proof. unfold write. rewrite lookup_insert_eq. eauto. Qed.

Lemma is_Some_open_a name (m : gmap string bytes) : is_Some (open_a name m !! name).
Proof.
  unfold open_a. destruct (m !! name) eqn:E; [by rewrite E|].
  rewrite lookup_insert_eq. eauto.
Qed.

(** ** The recording: C1 and C5 *)

Lemma payload_app l1 l2 : payload (l1 ++ l2) = payload l1 ++ payload l2.
Proof. unfold payload. by rewrite map_app, concat_app. Qed.

Lemma payload_frame w src d : payload (w ++ [(src, d)]) = payload w ++ d.
Proof. rewrite payload_app. unfold payload. simpl. by rewrite app_nil_r. Qed.

Lemma rec_inv_view sid h s s' :
  relay_view s' = relay_view s → rec_inv sid h s → rec_inv sid h s'.
Proof.
  unfold relay_view, rec_inv, conv_content. intros [= -> -> -> -> -> _ _ _ _]. done.
Qed.

Lemma rec_inv_init agent_id now disk h :
  rec_inv (strftime now) h (websocket_call agent_id now disk).
Proof. done. Qed.

Lemma rec_inv_relay_step sid h s o :
  Wav.create_wav_header_default = Some h →
  rec_inv sid h s → rec_inv sid h (relay_step s o).
Proof.
  intros Hh (Hc & Ht & H).
  destruct (relay_step_names s o) as [Hc' Ht'].
  split; [congruence|]. split; [congruence|].
  pose proof (names_differ sid) as Hne. rewrite <- Hc, <- Ht in Hne.
  assert (Hne' : transcript_file s ≠ conversation_audio_file s) by congruence.
  revert H. unfold conv_content. clear Hc' Ht'.
  unfold relay_step, on_disconnect, on_fault, close_conv. rewrite Hh.
  destruct (relay s) as [| | | | | | | | | | | | |? []] eqn:Hpc, o; sim;
    try (rewrite Hpc; exact (fun H => H));
    try match goal with
        | |- context [match agent_audio_queue s with _ => _ end] =>
            destruct (agent_audio_queue s)
        | |- context [match transcript_queue s with _ => _ end] =>
            destruct (transcript_queue s)
        end; sim;
    rewrite ?lookup_open_wb_eq, ?(lookup_write_ne (transcript_file s)),
      ?(lookup_open_a_ne (transcript_file s)) by done;
    try done.
  all: intros H; try destruct H as [w [Ho Hf]]; try destruct H as [Hf Ho];
    rewrite ?app_nil_r in *.
  all: try (by eexists; split; [rewrite Ho; reflexivity | done]).
  all: try (by eexists _, _; split; [exact Ho | done]).
  - exists []. rewrite (lookup_write_eq _ _ _ _ Hf), Ho.
    unfold payload. simpl. by rewrite app_nil_r.
  - exists (w ++ [(FromClient, data)]).
    rewrite (lookup_write_eq _ _ _ _ Hf), payload_frame, !app_assoc, app_nil_r. done.
  - exists (w ++ [(FromAgent, audio_chunk)]).
    rewrite (lookup_write_eq _ _ _ _ Hf), payload_frame, !app_assoc, app_nil_r. done.
Qed.

Lemma rec_inv_step sid h s a :
  Wav.create_wav_header_default = Some h →
  rec_inv sid h s → rec_inv sid h (step s a).
Proof.
  intros Hh H. destruct a as [o| | | |]; [by apply rec_inv_relay_step|..];
    (eapply rec_inv_view; [apply step_relay_view; done | done]).
Qed.

Lemma rec_inv_run sid h script s :
  Wav.create_wav_header_default = Some h →
  rec_inv sid h s → rec_inv sid h (run script s).
Proof.
  intros Hh H. apply run_invariant; [done|].
  intros s' a. by apply rec_inv_step.
Qed.

Lemma default_header_44 :
  ∃ h, Wav.create_wav_header_default = Some h ∧ length h = 44%nat.
Proof. eexists. split; reflexivity. Qed.

(** C1. In every run of a session whose header write has run and in which
    no audio write has raised, the recording holds the header followed by
    the frames the relay obtained (client frames from [receive_bytes],
    agent frames from [get_nowait]), each once and in the order the
    relay obtained them; the one frame the relay may hold between obtaining
    and writing it is the last of [observed] and is not in the file yet.
    When the relay holds no frame (at [receive_bytes], at the queue
    polls, after a disconnect) the payload is the whole of [observed]. *)
Theorem recording_is_observed_frames agent_id now disk script :
  let s := run script (websocket_call agent_id now disk) in
  recording (relay s) = true →
  ∃ h written,
    Wav.create_wav_header_default = Some h ∧
    observed s = written ++ in_hand (relay s) ∧
    conv_content s = Some (h ++ payload written).
Proof.
  intros s Hrec. destruct default_header_44 as (h & Hh & _).
  pose proof (rec_inv_run (strftime now) h script _ Hh
                (rec_inv_init agent_id now disk h)) as (_ & _ & H).
  fold s in H. revert Hrec H. unfold recording.
  destruct (relay s) as [| | | | | | | | | | | | |? []]; try done; simpl.
  all: intros _ (w & Ho & Hf); by exists h, w.
Qed.

(** The sample session meets the hypothesis at its end. *)
Lemma recording_is_observed_frames_witness :
  let s := run scenario (websocket_call "agent" now0 ∅) in
  recording (relay s) = true ∧
  ∃ h written,
    Wav.create_wav_header_default = Some h ∧
    observed s = written ++ in_hand (relay s) ∧
    conv_content s = Some (h ++ payload written).
Proof.
  split; [reflexivity|].
  apply (recording_is_observed_frames "agent" now0 ∅ scenario). reflexivity.
Defined.

(** C5. The header of the recording is 44 bytes long. Right after the
    file is created (the relay is at line 115) the file is empty and the
    next statement of the relay writes the header; from then on the file is
    the header followed by the payload of frames the relay obtained, so
    every payload byte comes after the 44 header bytes. *)
Theorem header_precedes_payload agent_id now disk script :
  let s := run script (websocket_call agent_id now disk) in
  ∃ h, Wav.create_wav_header_default = Some h ∧ length h = 44%nat ∧
    (relay s = R_Header →
     conv_content s = Some [] ∧ conv_content (step s (Relay Done)) = Some h) ∧
    (header_present (relay s) = true →
     ∃ frames, frames `prefix_of` observed s ∧
       conv_content s = Some (h ++ payload frames)).
Proof.
  intros s. destruct default_header_44 as (h & Hh & Hlen).
  pose proof (rec_inv_run (strftime now) h script _ Hh
                (rec_inv_init agent_id now disk h)) as (_ & _ & H).
  fold s in H. exists h. split_and!; [done|done|..].
  - intros Hpc. rewrite Hpc in H. destruct H as [Hf _]. split; [done|].
    unfold conv_content in *. cbn [step]. unfold relay_step.
    rewrite Hpc, Hh. sim. by rewrite (lookup_write_eq _ _ _ _ Hf).
  - revert H. destruct (relay s) as [| | | | | | | | | | | | |? []]; try done;
      intros H _.
    all: try (destruct H as (w & Ho & Hf); exists w; split; [by eexists|done]).
    all: destruct H as (w & fr & Ho & Hf); exists w; split; [by eexists|done].
Qed.

(** ** The transcript *)

Lemma sent_json_bytes l d : sent_json (l ++ [SendBytes d]) = sent_json l.
Proof. unfold sent_json. rewrite omap_app. simpl. by rewrite app_nil_r. Qed.

Lemma sent_json_json l t d :
  sent_json (l ++ [SendJson t d]) = sent_json l ++ [(t, d)].
Proof. unfold sent_json. by rewrite omap_app. Qed.

Lemma transcript_messages_snoc w e : transcript_messages (w ++ [e]) = transcript_messages w ++ [("transcript", e)].
Proof. unfold transcript_messages. by rewrite map_app. Qed.

Lemma lines_snoc w e : lines (w ++ [e]) = lines w ++ encode (transcript_line e).
Proof. unfold lines. rewrite map_app, concat_app. simpl. by rewrite app_nil_r. Qed.

Lemma text_inv_view old s s' :
  relay_view s' = relay_view s → text_inv old s → text_inv old s'.
Proof.
  unfold relay_view, text_inv, transcript_content.
  intros [= -> -> -> -> _ -> -> _ _]. done.
Qed.

Lemma text_inv_init agent_id now disk :
  let s := websocket_call agent_id now disk in
  text_inv (default [] (disk !! transcript_file s)) s.
Proof.
  split; [apply names_differ|]. unfold transcript_content. simpl.
  by rewrite app_nil_r.
Qed.

Lemma text_inv_relay_step old (s : state) o :
  text_inv old s → text_inv old (relay_step s o).
Proof.
  intros (Hne & H).
  destruct (relay_step_names s o) as [Hc' Ht'].
  split; [congruence|].
  revert H. unfold transcript_content. clear Hc' Ht'.
  unfold relay_step, on_disconnect, on_fault, close_conv.
  destruct (relay s) as [| | | | | | | | | | | | |? []] eqn:Hpc, o; sim;
    try (rewrite Hpc; exact (fun H => H));
    try match goal with
        | |- context [match Wav.create_wav_header_default with _ => _ end] =>
            destruct Wav.create_wav_header_default
        | |- context [match agent_audio_queue _ with _ => _ end] =>
            destruct (agent_audio_queue _)
        | |- context [match transcript_queue _ with _ => _ end] =>
            destruct (transcript_queue _)
        end; sim;
    rewrite ?sent_json_bytes, ?sent_json_json, ?default_open_a, ?default_write,
      ?(lookup_open_wb_ne (conversation_audio_file _)),
      ?(lookup_write_ne (conversation_audio_file _)) by assumption;
    intros H; try exact H;
    try destruct H as (w & Hd & Hs & Hf); try destruct H as [Hs Hf];
    try (split; [assumption|]; rewrite ?app_nil_r; assumption).
  - by exists (drained s).
  - exists w. by rewrite Hs, transcript_messages_snoc.
  - by exists w, transcript.
  - by exists w, transcript.
  - by exists w, transcript.
  - rewrite Hd, Hf, lines_snoc, <- app_assoc, Hs. by split.
  - by exists w, transcript.
Qed.

Lemma text_inv_run old script s : text_inv old s → text_inv old (run script s).
Proof.
  intros H. apply run_invariant; [exact H|]. clear.
  intros s [o| | | |] H; [by apply text_inv_relay_step|..];
    (eapply text_inv_view; [apply step_relay_view; intros ? [=] | exact H]).
Qed.

Lemma take_snoc_all {A} (w : list A) e : take (S (length w)) (w ++ [e]) = w ++ [e].
Proof. apply take_ge. rewrite length_app. simpl. lia. Qed.

(** The messages and the lines of the events drained so far. *)
Lemma transcript_progress agent_id now disk script :
  let s := run script (websocket_call agent_id now disk) in
  let old := default [] (disk !! transcript_file s) in
  ∃ n m : nat,
    (m ≤ n ≤ length (drained s))%nat ∧ (length (drained s) ≤ S m)%nat ∧
    sent_json (to_client s) = transcript_messages (take n (drained s)) ∧
    default [] (transcript_content s) = old ++ lines (take m (drained s)) ∧
    (text_settled (relay s) = true → m = length (drained s)).
Proof.
  intros s old.
  pose proof (text_inv_run _ script _ (text_inv_init agent_id now disk)) as [_ H].
  fold s in H.
  assert (transcript_file (websocket_call agent_id now disk) = transcript_file s) as Hn
    by (symmetry; apply run_names).
  rewrite Hn in H. fold old in H. revert H.
  assert (∀ w (e : event),
    drained s = w ++ [e] →
    sent_json (to_client s) = transcript_messages w →
    default [] (transcript_content s) = old ++ lines w →
    ∃ n m : nat,
      (m ≤ n ≤ length (drained s))%nat ∧ (length (drained s) ≤ S m)%nat ∧
      sent_json (to_client s) = transcript_messages (take n (drained s)) ∧
      default [] (transcript_content s) = old ++ lines (take m (drained s)) ∧
      (false = true → m = length (drained s))) as caseA.
  { intros w e Hd Hs Hf. exists (length w), (length w).
    rewrite Hd, length_app, take_app_length. simpl.
    repeat split; try lia; try assumption. }
  assert (∀ w (e : event),
    drained s = w ++ [e] →
    sent_json (to_client s) = transcript_messages (w ++ [e]) →
    default [] (transcript_content s) = old ++ lines w →
    ∃ n m : nat,
      (m ≤ n ≤ length (drained s))%nat ∧ (length (drained s) ≤ S m)%nat ∧
      sent_json (to_client s) = transcript_messages (take n (drained s)) ∧
      default [] (transcript_content s) = old ++ lines (take m (drained s)) ∧
      (false = true → m = length (drained s))) as caseB.
  { intros w e Hd Hs Hf. exists (S (length w)), (length w).
    rewrite Hd, length_app, take_app_length, take_snoc_all. simpl.
    repeat split; try lia; try assumption. }
  destruct (relay s) as [| | | | | | | | | | | | |? []]; simpl.
  all: try (intros [Hs Hf]; exists (length (drained s)), (length (drained s));
            rewrite firstn_all; repeat split; try lia; assumption).
  all: try (intros (w & Hd & Hs & Hf); first [ by eapply caseA | by eapply caseB ]).
  all: intros (w & e & Hd & Hs & Hf); first [ by eapply caseA | by eapply caseB ].
Qed.

(** ** JSON round trip *)

Section JsonFacts.
Local Open Scope N_scope.

Lemma hex_val_hex_digit d : d < 16 → hex_val (hex_digit d) = Some d.
Proof.
  intros H.
  assert (d = 0 ∨ d = 1 ∨ d = 2 ∨ d = 3 ∨ d = 4 ∨ d = 5 ∨ d = 6 ∨ d = 7 ∨
          d = 8 ∨ d = 9 ∨ d = 10 ∨ d = 11 ∨ d = 12 ∨ d = 13 ∨ d = 14 ∨
          d = 15) as Hd by lia.
  repeat (destruct Hd as [->|Hd]; [reflexivity|]). by subst.
Qed.

Lemma decode_hex4_hex4 n :
  n < 65536 →
  ∃ a b c d, hex4 n = String a (String b (String c (String d EmptyString))) ∧
    decode_hex4 a b c d = Some n.
Proof.
  intros H. eexists _, _, _, _. split; [reflexivity|].
  unfold decode_hex4.
  rewrite !hex_val_hex_digit by (apply N.mod_lt; done). simpl.
  f_equal.
  replace (n / 256) with (n / 16 / 16) by (rewrite N.Div0.div_div; done).
  replace (n / 4096) with (n / 16 / 16 / 16) by (rewrite !N.Div0.div_div; done).
  pose proof (N.div_mod' n 16) as E0.
  pose proof (N.div_mod' (n / 16) 16) as E1.
  pose proof (N.div_mod' (n / 16 / 16) 16) as E2.
  pose proof (N.div_mod' (n / 16 / 16 / 16) 16) as E3.
  pose proof (N.mod_lt n 16) as B0.
  pose proof (N.mod_lt (n / 16) 16) as B1.
  pose proof (N.mod_lt (n / 16 / 16) 16) as B2.
  pose proof (N.mod_lt (n / 16 / 16 / 16) 16) as B3.
  generalize dependent (n mod 16). generalize dependent ((n / 16) mod 16).
  generalize dependent ((n / 16 / 16) mod 16).
  generalize dependent ((n / 16 / 16 / 16) mod 16).
  generalize dependent (n / 16 / 16 / 16 / 16).
  generalize dependent (n / 16 / 16 / 16).
  generalize dependent (n / 16 / 16). generalize dependent (n / 16).
  intros. lia.
Qed.

Lemma lor_shiftl_add a b k : b < 2 ^ k → N.lor (N.shiftl a k) b = a * 2 ^ k + b.
Proof.
  intros H.
  assert (N.land (N.shiftl a k) b = 0) as Hl.
  { apply N.bits_inj; intros i. rewrite N.land_spec, N.bits_0.
    destruct (N.lt_ge_cases i k) as [Hi|Hi].
    - by rewrite N.shiftl_spec_low.
    - rewrite <- (N.mod_small b (2 ^ k)) by done.
      rewrite N.mod_pow2_bits_high by done. apply andb_false_r. }
  rewrite <- N.lxor_lor by done. rewrite <- N.add_nocarry_lxor by done.
  by rewrite N.shiftl_mul_pow2.
Qed.

(** The surrogate pair of a code point above the BMP. *)
Lemma surrogates_of c :
  0x10000 ≤ c → c < 0x110000 →
  let n := c - 0x10000 in
  let s1 := N.lor 0xd800 (N.land (N.shiftr n 10) 0x3ff) in
  let s2 := N.lor 0xdc00 (N.land n 0x3ff) in
  s1 < 65536 ∧ s2 < 65536 ∧
  is_high s1 = true ∧ is_low s1 = false ∧ is_low s2 = true ∧
  join_surrogates s1 s2 = c.
Proof.
  intros H1 H2 n s1 s2.
  assert (c = 0x10000 + n ∧ n < 0x100000) as [Hc Hn] by (unfold n; lia).
  assert (n / 1024 < 1024) as B1 by (apply N.Div0.div_lt_upper_bound; lia).
  pose proof (N.mod_lt n 1024) as B2.
  pose proof (N.div_mod' n 1024) as E.
  assert (s1 = 0xd800 + n / 1024) as E1.
  { unfold s1. change 0x3ff with (N.ones 10). rewrite N.land_ones, N.shiftr_div_pow2.
    change 0xd800 with (N.shiftl 54 10).
    rewrite lor_shiftl_add by (apply N.mod_lt; done).
    change (2 ^ 10) with 1024. by rewrite N.mod_small. }
  assert (s2 = 0xdc00 + n mod 1024) as E2.
  { unfold s2. change 0x3ff with (N.ones 10). rewrite N.land_ones.
    change 0xdc00 with (N.shiftl 55 10).
    by rewrite lor_shiftl_add by (apply N.mod_lt; done). }
  rewrite E1, E2. unfold is_high, is_low, join_surrogates.
  clear E1 E2. clearbody n s1 s2.
  set (q := n / 1024) in *. set (m := n mod 1024) in *. clearbody q m.
  replace (0xd800 + q - 0xd800) with q by lia.
  replace (0xdc00 + m - 0xdc00) with m by lia.
  rewrite lor_shiftl_add by (apply B2; done).
  change (2 ^ 10) with 1024.
  repeat split; try lia.
  - apply andb_true_intro; split; apply N.leb_le; lia.
  - apply andb_false_intro1. apply N.leb_gt. lia.
  - apply andb_true_intro; split; apply N.leb_le; lia.
Qed.

(** *** One step of the decoder *)

Lemma append_String a s r : (String a s ++ r = String a (s ++ r))%string.
Proof. reflexivity. Qed.

Lemma append_Empty r : (EmptyString ++ r = r)%string.
Proof. reflexivity. Qed.

Lemma append_assoc (a b c : string) : ((a ++ b) ++ c = a ++ (b ++ c))%string.
Proof.
  induction a as [|x a IH]; [done|]. by rewrite !append_String, IH.
Qed.

Ltac str_norm :=
  repeat (rewrite append_assoc || rewrite append_String || rewrite append_Empty).

Lemma scanstring_quote hi r : scanstring hi (String quote r) = flush hi (Some ([], r)).
Proof. reflexivity. Qed.

Lemma scanstring_u hi a b c d r :
  scanstring hi (String backslash (String "u" (String a (String b (String c (String d r)))))) =
  match decode_hex4 a b c d with
  | None => None
  | Some u => scan_unit hi u r
  end.
Proof. reflexivity. Qed.

Lemma scanstring_literal hi a r :
  let n := N_of_ascii a in
  n ≠ 34 → n ≠ 92 → 32 ≤ n → n ≤ 127 →
  scanstring hi (String a r) = flush hi (emit n (scanstring None r)).
Proof.
  intros n H1 H2 H3 H4. cbn [scanstring]. fold n.
  destruct (N.eqb_spec n 34); [done|]. destruct (N.eqb_spec n 92); [done|].
  destruct (N.ltb_spec n 32); [lia|]. destruct (N.ltb_spec 127 n); [lia|]. done.
Qed.

Lemma scan_unit_plain hi c r :
  is_high c = false → is_low c = false →
  scan_unit hi c r = flush hi (emit c (scanstring None r)).
Proof. intros H1 H2. unfold scan_unit. rewrite H1, H2. by destruct hi. Qed.

Lemma not_surrogate_small c : c < 0xd800 → is_high c = false ∧ is_low c = false.
Proof.
  intros H. unfold is_high, is_low.
  split; apply andb_false_intro1; apply N.leb_gt; lia.
Qed.

Lemma scan_escape_u hi u r :
  u < 65536 → scanstring hi (escape_u u ++ r) = scan_unit hi u r.
Proof.
  intros H. destruct (decode_hex4_hex4 u H) as (a & b & c & d & E & D).
  unfold escape_u. rewrite E. str_norm. by rewrite scanstring_u, D.
Qed.

Lemma scan_escape_bmp hi c r :
  c < 0x10000 → scanstring hi (escape_char c ++ r) = scan_unit hi c r.
Proof.
  intros H. unfold escape_char.
  repeat match goal with
         | |- context [N.eqb c ?k] =>
             destruct (N.eqb_spec c k) as [->|?];
               [by destruct hi|]
         end.
  destruct (N.leb_spec 32 c), (N.leb_spec c 126); cbn [andb].
  1: { str_norm.
       rewrite scanstring_literal; rewrite N_ascii_embedding by lia; try lia.
       symmetry. apply scan_unit_plain; apply not_surrogate_small; lia. }
  all: destruct (N.ltb_spec c 0x10000); [|lia]; by apply scan_escape_u.
Qed.

Lemma scan_escape_astral hi c r :
  0x10000 ≤ c → c < 0x110000 →
  scanstring hi (escape_char c ++ r) = flush hi (emit c (scanstring None r)).
Proof.
  intros H1 H2. unfold escape_char.
  repeat match goal with
         | |- context [N.eqb c ?k] =>
             destruct (N.eqb_spec c k) as [->|?]; [lia|]
         end.
  destruct (N.leb_spec 32 c), (N.leb_spec c 126); cbn [andb]; try lia.
  destruct (N.ltb_spec c 0x10000); [lia|].
  destruct (surrogates_of c H1 H2) as (B1 & B2 & Hh & Hl & Hl2 & Hj).
  cbv zeta. rewrite append_assoc.
  rewrite scan_escape_u by done. unfold scan_unit at 1. rewrite Hh, Hl.
  rewrite scan_escape_u by done. unfold scan_unit. rewrite Hl2, Hj.
  by destruct hi.
Qed.

(** *** Strings *)

Lemma scan_escape_all s : ∀ hi r,
  text_ok s = true →
  (is_Some hi → match s with c :: _ => is_low c = false | [] => True end) →
  scanstring hi (escape_all s ++ String quote r) = flush hi (Some (s, r)).
Proof.
  induction s as [|c s IH]; intros hi r Hok Hhi.
  - apply scanstring_quote.
  - cbn [text_ok] in Hok. apply andb_prop in Hok as [Hok Hs].
    apply andb_prop in Hok as [Hc Hpair]. apply N.ltb_lt in Hc.
    cbn [escape_all]. rewrite append_assoc.
    destruct (N.lt_ge_cases c 0x10000) as [Hb|Hb].
    + rewrite scan_escape_bmp by done. unfold scan_unit.
      destruct hi as [h|].
      * rewrite (Hhi (mk_is_Some _ _ eq_refl)).
        destruct (is_high c) eqn:Hh.
        -- rewrite IH; [done|done|]. intros _. destruct s as [|c' s]; [done|].
           simpl in Hpair. by destruct (is_low c').
        -- rewrite IH; [done|done|]. by intros [? [=]].
      * destruct (is_high c) eqn:Hh.
        -- rewrite IH; [done|done|]. intros _. destruct s as [|c' s]; [done|].
           simpl in Hpair. by destruct (is_low c').
        -- rewrite IH; [done|done|]. by intros [? [=]].
    + rewrite scan_escape_astral by done.
      rewrite IH; [by destruct hi|done|]. by intros [? [=]].
Qed.

Lemma scan_encode_str s r :
  text_ok s = true →
  scanstring None (escape_all s ++ String quote r) = Some (s, r).
Proof. intros H. rewrite scan_escape_all; [done|done|]. by intros [? [=]]. Qed.

(** *** Objects *)

(** The text of the members, laid out as the decoder walks it. *)
Lemma encode_items_cons k v e r :
  (encode_items ((k, v) :: e) ++ r)%string =
  String quote (escape_all k ++ String quote (String ":" (String " "
    (String quote (escape_all v ++ String quote
       match e with
       | [] => r
       | _ :: _ => String "," (String " " (encode_items e ++ r))
       end)))))%string.
Proof.
  destruct e as [|kv e]; cbn [encode_items]; unfold encode_item, encode_str;
    cbn [fst snd]; by str_norm.
Qed.

Lemma skip_ws_quote r : skip_ws (String quote r) = String quote r.
Proof. reflexivity. Qed.

Lemma parse_members_items e : ∀ fuel k v r tail,
  (length e < fuel)%nat →
  Forall (λ kv, text_ok kv.1 = true ∧ text_ok kv.2 = true) ((k, v) :: e) →
  (encode_items ((k, v) :: e) ++ String "}" r)%string = String quote tail →
  parse_members fuel tail = Some ((k, v) :: e, r).
Proof.
  induction e as [|[k' v'] e IH]; intros fuel k v r tail Hfuel Hok;
    rewrite encode_items_cons; intros [= <-];
    apply Forall_cons in Hok as [[Hk Hv] Hok]; cbn [fst snd] in *;
    (destruct fuel as [|fuel]; [simpl in Hfuel; lia|]).
  - cbn [parse_members]. rewrite scan_encode_str by done. simpl.
    rewrite scan_encode_str by done. reflexivity.
  - pose proof (encode_items_cons k' v' e (String "}" r)) as E.
    change (match e with
            | [] => encode_item (k', v')
            | _ :: _ => (encode_item (k', v') ++ ", " ++ encode_items e)%string
            end) with (encode_items ((k', v') :: e)).
    rewrite E.
    cbn [parse_members]. rewrite scan_encode_str by done. simpl.
    rewrite scan_encode_str by done. simpl.
    rewrite (IH fuel k' v' r _); [done|simpl in *; lia|done|exact E].
Qed.

Lemma string_length_append (a b : string) :
  String.length (a ++ b)%string = (String.length a + String.length b)%nat.
Proof.
  induction a as [|x a IH]; [done|]. rewrite append_String. simpl. by rewrite IH.
Qed.

Lemma length_encode_items e r :
  (2 * length e ≤ String.length (encode_items e ++ r))%nat.
Proof.
  induction e as [|[k v] e IH]; [simpl; lia|].
  rewrite encode_items_cons. cbn [String.length length].
  rewrite !string_length_append. cbn [String.length].
  rewrite !string_length_append. cbn [String.length].
  destruct e as [|kv e]; cbn [length String.length] in *; lia.
Qed.

Lemma dict_set_fresh k v d :
  k ∉ map fst d → dict_set k v d = d ++ [(k, v)].
Proof.
  induction d as [|[k' v'] d IH]; intros H; [done|].
  simpl in *. apply not_elem_of_cons in H as [H1 H2].
  destruct (decide (k = k')); [done|]. by rewrite IH.
Qed.

Lemma dict_NoDup e : NoDup (map fst e) → dict e = e.
Proof.
  unfold dict. intros H.
  enough (∀ acc, NoDup (map fst (acc ++ e)) →
    foldl (λ d kv, dict_set kv.1 kv.2 d) acc e = acc ++ e) as G.
  { by apply (G []). }
  clear H. induction e as [|[k v] e IH]; intros acc H; simpl.
  - by rewrite app_nil_r.
  - rewrite dict_set_fresh.
    + rewrite IH; rewrite <- app_assoc; done.
    + rewrite map_app in H. apply NoDup_app in H as (_ & H & _).
      intros Hin. apply (H k Hin). simpl. left.
Qed.

(** [json.loads(json.dumps(e) + ws) == e] for trailing white space [ws]. *)
Lemma loads_dumps e ws :
  event_ok e → skip_ws ws = EmptyString → loads (dumps e ++ ws) = Some e.
Proof.
  intros [Hnd Hok] Hws. unfold dumps. str_norm.
  destruct e as [|[k v] e].
  - cbn [encode_items]. str_norm. unfold loads, parse_object. simpl.
    by rewrite Hws.
  - pose proof (length_encode_items ((k, v) :: e) (String "}" ws)) as L.
    pose proof (parse_members_items e) as P.
    specialize (P (String.length (encode_items ((k, v) :: e) ++ String "}" ws) - 1)%nat
                  k v ws).
    rewrite encode_items_cons in *.
    match type of L with
    | context [String.length (String quote ?t)] => generalize dependent t
    end.
    intros tail L P. unfold loads, parse_object. simpl in *.
    rewrite Nat.sub_0_r in P. rewrite P; [| lia | done | done].
    simpl. rewrite Hws. by rewrite dict_NoDup.
Qed.

Lemma loads_transcript_line e :
  event_ok e → loads (Session.transcript_line e) = Some e.
Proof. intros H. by apply loads_dumps. Qed.

(** *** Lines *)

Lemma has_newline_append a b :
  has_newline (a ++ b)%string = has_newline a || has_newline b.
Proof.
  induction a as [|x a IH]; [done|]. rewrite append_String. simpl.
  by rewrite IH, orb_assoc.
Qed.

Lemma hex_digit_not_newline d : d < 16 → (N_of_ascii (hex_digit d) =? 10) = false.
Proof.
  intros H.
  assert (d = 0 ∨ d = 1 ∨ d = 2 ∨ d = 3 ∨ d = 4 ∨ d = 5 ∨ d = 6 ∨ d = 7 ∨
          d = 8 ∨ d = 9 ∨ d = 10 ∨ d = 11 ∨ d = 12 ∨ d = 13 ∨ d = 14 ∨
          d = 15) as Hd by lia.
  repeat (destruct Hd as [->|Hd]; [reflexivity|]). by subst.
Qed.

Lemma has_newline_escape_u n : has_newline (escape_u n) = false.
Proof.
  unfold escape_u, hex4. cbn [has_newline].
  rewrite !hex_digit_not_newline by (apply N.mod_lt; done). reflexivity.
Qed.

Lemma has_newline_escape_char c : has_newline (escape_char c) = false.
Proof.
  unfold escape_char.
  repeat match goal with
         | |- context [N.eqb c ?k] =>
             destruct (N.eqb_spec c k) as [->|?]; [reflexivity|]
         end.
  destruct (N.leb_spec 32 c), (N.leb_spec c 126); cbn [andb].
  1: { cbn [has_newline]. rewrite N_ascii_embedding by lia.
       destruct (N.eqb_spec c 10); [lia|done]. }
  all: destruct (N.ltb_spec c 0x10000);
    rewrite ?has_newline_append, ?has_newline_escape_u; done.
Qed.

Lemma has_newline_escape_all s : has_newline (escape_all s) = false.
Proof.
  induction s as [|c s IH]; [done|]. cbn [escape_all].
  by rewrite has_newline_append, has_newline_escape_char, IH.
Qed.

Lemma has_newline_String a r :
  has_newline (String a r) = (N_of_ascii a =? 10) || has_newline r.
Proof. reflexivity. Qed.

Lemma has_newline_encode_items e r :
  has_newline (encode_items e ++ r) = has_newline r.
Proof.
  induction e as [|[k v] e IH]; [done|].
  rewrite encode_items_cons.
  repeat (rewrite has_newline_String || rewrite has_newline_append
          || rewrite has_newline_escape_all).
  destruct e as [|kv e]; [done|].
  repeat rewrite has_newline_String. by rewrite IH.
Qed.

Lemma has_newline_dumps e : has_newline (dumps e) = false.
Proof.
  unfold dumps. str_norm. rewrite has_newline_String, has_newline_encode_items.
  reflexivity.
Qed.

Lemma readlines_line s r :
  has_newline s = false →
  readlines (s ++ String newline r) = (s ++ String newline EmptyString)%string :: readlines r.
Proof.
  induction s as [|a s IH]; intros H; [done|].
  rewrite has_newline_String in H. apply orb_false_elim in H as [Ha Hs].
  rewrite !append_String. cbn [readlines]. rewrite Ha. by rewrite IH.
Qed.

Lemma string_of_list_byte_app (a b : bytes) :
  string_of_list_byte (a ++ b) =
  (string_of_list_byte a ++ string_of_list_byte b)%string.
Proof.
  induction a as [|x a IH]; [done|].
  change (string_of_list_byte ((x :: a) ++ b)) with
    (String (ascii_of_byte x) (string_of_list_byte (a ++ b))).
  by rewrite IH.
Qed.

(** Reading back the lines written for [es] gives [es]. *)
Lemma read_transcript_lines es :
  Forall event_ok es → Session.read_transcript (Session.lines es) = Some es.
Proof.
  unfold Session.read_transcript, Session.lines.
  induction 1 as [|e es He Hes IH]; [done|].
  cbn [map concat]. rewrite string_of_list_byte_app.
  unfold Session.encode at 1. rewrite string_of_list_byte_of_string.
  unfold Session.transcript_line at 1. str_norm.
  rewrite readlines_line by apply has_newline_dumps.
  cbn [mapM]. fold (Session.transcript_line e).
  rewrite loads_transcript_line by done. simpl.
  by rewrite IH.
Qed.

End JsonFacts.

(** ** The transcript: C6 *)

(** C6. Of the events the relay has drained, in order: the first [n] have
    had their message sent to the client, as [{"type": "transcript",
    "data": event}] and nothing else; the first [m] have had their line
    appended to the transcript; [m <= n], a line is appended after its
    message is sent; and all but the last have both. Once the relay is past
    the statements of the last event (and was not stopped inside them),
    every drained event has exactly one message and one line. Each line is
    [json.dumps(event) + "\n"], which [json.loads] maps back to the event;
    reading a transcript that was empty at the start line by line gives the
    drained events. *)
Theorem transcript_events agent_id now disk script :
  let s := run script (websocket_call agent_id now disk) in
  let old := default [] (disk !! transcript_file s) in
  (∃ n m : nat,
     (m ≤ n ≤ length (drained s))%nat ∧ (length (drained s) ≤ S m)%nat ∧
     sent_json (to_client s) = transcript_messages (take n (drained s)) ∧
     default [] (transcript_content s) = old ++ lines (take m (drained s)) ∧
     (text_settled (relay s) = true → m = length (drained s))) ∧
  (∀ e, event_ok e → loads (transcript_line e) = Some e) ∧
  (text_settled (relay s) = true → disk !! transcript_file s = None →
   Forall event_ok (drained s) →
   read_transcript (default [] (transcript_content s)) = Some (drained s)).
Proof.
  intros s old.
  destruct (transcript_progress agent_id now disk script)
    as (n & m & Hnm & Hlen & Hsent & Hfile & Hset).
  fold s in Hnm, Hlen, Hsent, Hfile, Hset. fold old in Hfile.
  split; [by exists n, m|]. split; [apply loads_transcript_line|].
  intros Hst Hnone Hok. rewrite Hfile, (Hset Hst), firstn_all.
  unfold old. rewrite Hnone. simpl. by apply read_transcript_lines.
Qed.

(** ** The Termination Signal and shutdown: C7 *)

Lemma relay_step_agent_view s o :
  relay s ≠ R_Spawn → agent_view (relay_step s o) = agent_view s.
Proof.
  intros H. unfold relay_step, on_disconnect, on_fault, close_conv.
  destruct (relay s) as [| | | | | | | | | | | | |? []], o; try done;
    repeat case_match; reflexivity.
Qed.

Lemma relay_step_spawn s :
  relay s = R_Spawn → relay_step s Done = set_relay R_Open (set_agent A_Init s).
Proof. intros H. unfold relay_step. by rewrite H. Qed.

Lemma relay_step_spawn_other s o :
  relay s = R_Spawn → o ≠ Done → relay_step s o = s.
Proof. intros H Ho. unfold relay_step. rewrite H. by destruct o. Qed.

Lemma relay_step_not_spawn s o : relay s ≠ R_Spawn → relay (relay_step s o) ≠ R_Spawn.
Proof.
  intros Hpc. unfold relay_step, on_disconnect, on_fault, close_conv.
  destruct (relay s) as [| | | | | | | | | | | | |? []] eqn:E, o;
    try (by destruct Hpc); repeat case_match; sim; rewrite ?E; discriminate.
Qed.

Lemma agent_step_unstarted s c : agent s = A_Unstarted → agent_step s c = s.
Proof. intros H. unfold agent_step. rewrite H. by destruct c. Qed.

Lemma agent_step_closed s c : agent s = A_Closed → agent_step s c = s.
Proof. intros H. unfold agent_step. rewrite H. by destruct c. Qed.

Lemma on_audio_data_agent_view s d : agent_view (on_audio_data s d) = agent_view s.
Proof. unfold on_audio_data. case_match; reflexivity. Qed.

Lemma on_conversation_text_agent_view s e :
  agent_view (on_conversation_text s e) = agent_view s.
Proof. unfold on_conversation_text. case_match; reflexivity. Qed.

Lemma forwarded_keepalive l : forwarded (l ++ [KeepAlive]) = forwarded l.
Proof. unfold forwarded. rewrite omap_app. simpl. by rewrite app_nil_r. Qed.

Lemma keep_step_agent_view s ok :
  agent (keep_step s ok) = agent s ∧ conn (keep_step s ok) = conn s ∧
  finishes (keep_step s ok) = finishes s ∧
  processing_complete (keep_step s ok) = processing_complete s ∧
  forwarded (to_agent (keep_step s ok)) = forwarded (to_agent s).
Proof.
  unfold keep_step. destruct (keep s), ok; repeat case_match; sim;
    rewrite ?forwarded_keepalive; done.
Qed.

Lemma closes_inv_step s a : closes_inv s → closes_inv (step s a).
Proof.
  destruct a as [o| | | |].
  2-5: unfold closes_inv;
    match goal with
    | |- context [step ?s ?a] =>
        assert (relay_view (step s a) = relay_view s) as [= _ _ H1 _ _ _ _ H2 H3]
          by (apply step_relay_view; intros ? [=])
    end; cbn [step] in *; rewrite H1, H2, H3; exact (λ H, H).
  cbn [step]. unfold closes_inv, relay_step, on_disconnect, on_fault, close_conv.
  destruct (relay s) as [| | | | | | | | | | | | |? []] eqn:Hpc, o; sim;
    try (rewrite Hpc; exact (λ H, H));
    try match goal with
      | |- context [match Wav.create_wav_header_default with _ => _ end] =>
          destruct Wav.create_wav_header_default
      | |- context [match agent_audio_queue _ with _ => _ end] =>
          destruct (agent_audio_queue _)
      | |- context [match transcript_queue _ with _ => _ end] =>
          destruct (transcript_queue _)
      end; sim; intros [H1 H2]; rewrite ?H1; split; reflexivity || assumption.
Qed.

Lemma finish_inv_step s a : finish_inv s → finish_inv (step s a).
Proof.
  intros [Hs Hf]. destruct a as [o|c|ok|d|e]; cbn [step].
  - assert (relay s = R_Spawn ∨ relay s ≠ R_Spawn) as [Hpc|Hpc]
      by (destruct (relay s); (by left) || (by right)).
    + assert (o = Done ∨ o ≠ Done) as [->|Ho]
        by (destruct o; (by left) || (by right)).
      * rewrite relay_step_spawn by done. rewrite (Hs Hpc) in Hf. by split.
      * by rewrite relay_step_spawn_other.
    + pose proof (relay_step_agent_view s o Hpc) as [= Ha _ _ Hfi _].
      unfold finish_inv. rewrite Ha, Hfi. split; [|done].
      intros Hr. exfalso. revert Hr.
      unfold relay_step, on_disconnect, on_fault, close_conv.
      destruct (relay s) as [| | | | | | | | | | | | |? []] eqn:E, o;
        try (by destruct Hpc); repeat case_match; sim; rewrite ?E;
        discriminate.
  - assert (relay (agent_step s c) = relay s) as Hr
      by (by pose proof (agent_step_relay_view s c) as [= _ _ ? _ _ _ _ _ _]).
    assert (agent s = A_Unstarted ∨ agent s ≠ A_Unstarted) as [Hag|Hag]
      by (destruct (agent s); (by left) || (by right));
      [by rewrite agent_step_unstarted|].
    split.
    + rewrite Hr. intros H. by destruct (Hag (Hs H)).
    + revert Hf. unfold agent_step, agent_except.
      destruct (agent s) eqn:Ea, c; try (by destruct Hag); sim;
        try match goal with
          | |- context [match client_audio_queue _ with _ => _ end] =>
              destruct (client_audio_queue _)
          | |- context [if Event_is_set ?b then _ else _] =>
              destruct b
          end; sim; rewrite ?Ea; lia.
  - assert (relay_view (keep_step s ok) = relay_view s) as [= _ _ Hr _ _ _ _ _ _]
      by apply keep_step_relay_view.
    assert (agent (keep_step s ok) = agent s ∧
            finishes (keep_step s ok) = finishes s) as [Ha Hfi]
      by (unfold keep_step; destruct (keep s), ok; repeat case_match; by split).
    unfold finish_inv. rewrite Hr, Ha, Hfi. by split.
  - pose proof (on_audio_data_relay_view s d) as [= _ _ Hr _ _ _ _ _ _].
    pose proof (on_audio_data_agent_view s d) as [= Ha _ _ Hfi _].
    unfold finish_inv. rewrite Hr, Ha, Hfi. by split.
  - pose proof (on_conversation_text_relay_view s e) as [= _ _ Hr _ _ _ _ _ _].
    pose proof (on_conversation_text_agent_view s e) as [= Ha _ _ Hfi _].
    unfold finish_inv. rewrite Hr, Ha, Hfi. by split.
Qed.

Lemma processing_complete_step s a :
  processing_complete s = true → processing_complete (step s a) = true.
Proof.
  intros H. destruct a as [o|c|ok|d|e]; cbn [step].
  - unfold relay_step, on_disconnect, on_fault, close_conv.
    destruct (relay s) as [| | | | | | | | | | | | |? []], o; sim; try assumption;
      try match goal with
        | |- context [match Wav.create_wav_header_default with _ => _ end] =>
            destruct Wav.create_wav_header_default
        | |- context [match agent_audio_queue _ with _ => _ end] =>
            destruct (agent_audio_queue _)
        | |- context [match transcript_queue _ with _ => _ end] =>
            destruct (transcript_queue _)
        end; sim; assumption || reflexivity.
  - unfold agent_step, agent_except.
    destruct (agent s), c; sim; try assumption;
      try match goal with
        | |- context [match client_audio_queue _ with _ => _ end] =>
            destruct (client_audio_queue _)
        end; unfold Event_is_set, Event_set; rewrite ?H; sim;
      assumption || reflexivity.
  - unfold keep_step, Event_is_set.
    destruct (keep s), ok; rewrite ?H; sim; assumption || reflexivity.
  - unfold on_audio_data. destruct (callbacks_on (conn s)); sim; assumption.
  - unfold on_conversation_text. destruct (callbacks_on (conn s)); sim; assumption.
Qed.

Lemma processing_complete_run script s :
  processing_complete s = true → processing_complete (run script s) = true.
Proof.
  intros H. apply (run_invariant (λ s, processing_complete s = true)); [done|].
  intros. by apply processing_complete_step.
Qed.

(** C7. [set] is idempotent and leaves the flag set; once
    [processing_complete] is set it is set in every continuation, whatever
    the interleaving; the recording is closed at most once and
    [connection.finish] is called at most once, and when the relay has left
    after opening the recording it has closed it exactly once. *)
Theorem termination_signal agent_id now disk script :
  let s := run script (websocket_call agent_id now disk) in
  (∀ e, Event_set (Event_set e) = Event_set e ∧ Event_is_set (Event_set e) = true) ∧
  (∀ script', processing_complete s = true →
     processing_complete (run script' s) = true) ∧
  (conv_closes s ≤ 1)%nat ∧ (finishes s ≤ 1)%nat ∧
  (exited (relay s) = true → conv_file s ≠ Unopened → conv_closes s = 1%nat).
Proof.
  intros s.
  assert (closes_inv s) as Hr.
  { apply run_invariant; [by split|]. apply closes_inv_step. }
  assert (finish_inv s) as [_ Ha].
  { apply run_invariant; [by split|]. apply finish_inv_step. }
  split; [done|]. split; [intros; by apply processing_complete_run|].
  unfold closes_inv in Hr. split; [|split].
  - destruct (relay s) as [| | | | | | | | | | | | |? []]; lia.
  - destruct (agent s); lia.
  - destruct (relay s) as [| | | | | | | | | | | | |? []]; try done; intros _; tauto.
Qed.

(** ** A failed handshake: C8 *)

Lemma unconnected_inv_step s a : unconnected_inv s → unconnected_inv (step s a).
Proof.
  intros [Hs Hf]. destruct a as [o|c|ok|d|e]; cbn [step].
  - assert (relay s = R_Spawn ∨ relay s ≠ R_Spawn) as [Hpc|Hpc]
      by (destruct (relay s); (by left) || (by right)).
    + assert (o = Done ∨ o ≠ Done) as [->|Ho]
        by (destruct o; (by left) || (by right)).
      * rewrite relay_step_spawn by done. rewrite (Hs Hpc) in Hf. by split.
      * by rewrite relay_step_spawn_other.
    + pose proof (relay_step_agent_view s o Hpc) as [= Ha _ Hc _ Ht].
      unfold unconnected_inv. rewrite Ha, Hc, Ht. split; [|done].
      intros Hr. by destruct (relay_step_not_spawn s o Hpc).
  - assert (relay (agent_step s c) = relay s) as Hr
      by (apply (step_relay_other s (Agent c)); intros ? [=]).
    assert (agent s = A_Unstarted ∨ agent s ≠ A_Unstarted) as [Hag|Hag]
      by (destruct (agent s); (by left) || (by right));
      [by rewrite agent_step_unstarted|].
    split.
    + rewrite Hr. intros H. by destruct (Hag (Hs H)).
    + revert Hf. unfold agent_step, agent_except.
      destruct (agent s) eqn:Ea, c; try (by destruct Hag); sim;
        try match goal with
          | |- context [match client_audio_queue _ with _ => _ end] =>
              destruct (client_audio_queue _)
          | |- context [if Event_is_set ?b then _ else _] =>
              destruct b
          end; sim; rewrite ?Ea; tauto.
  - assert (relay_view (keep_step s ok) = relay_view s) as [= _ _ Hr _ _ _ _ _ _]
      by apply keep_step_relay_view.
    destruct (keep_step_agent_view s ok) as (Ha & Hc & _ & _ & Ht).
    unfold unconnected_inv. rewrite Hr, Ha, Hc, Ht. by split.
  - pose proof (on_audio_data_relay_view s d) as [= _ _ Hr _ _ _ _ _ _].
    pose proof (on_audio_data_agent_view s d) as [= Ha _ Hc _ Ht].
    unfold unconnected_inv. rewrite Hr, Ha, Hc, Ht. by split.
  - pose proof (on_conversation_text_relay_view s e) as [= _ _ Hr _ _ _ _ _ _].
    pose proof (on_conversation_text_agent_view s e) as [= Ha _ Hc _ Ht].
    unfold unconnected_inv. rewrite Hr, Ha, Hc, Ht. by split.
Qed.

Lemma closed_inv_step s a : closed_inv s → closed_inv (step s a).
Proof.
  intros (Hr & Ha & Hf & Hc & Hp & Hn).
  pose proof (processing_complete_step s a Hp) as Hp'.
  destruct a as [o|c|ok|d|e]; cbn [step] in *.
  - pose proof (relay_step_agent_view s o Hr) as [= Ha' _ Hc' Hn' Ht'].
    unfold closed_inv. rewrite Ha', Hc', Hn', Ht'.
    split_and!; try assumption. by apply relay_step_not_spawn.
  - rewrite agent_step_closed by done. by repeat split.
  - destruct (keep_step_agent_view s ok) as (Ha' & Hc' & Hn' & _ & Ht').
    unfold closed_inv. rewrite Ha', Hc', Hn', Ht'.
    pose proof (step_relay_other s (Keep ok)) as Hr'. cbn [step] in Hr'.
    rewrite Hr' by (intros ? [=]). by repeat split.
  - pose proof (on_audio_data_agent_view s d) as [= Ha' _ Hc' Hn' Ht'].
    unfold closed_inv. rewrite Ha', Hc', Hn', Ht'.
    pose proof (step_relay_other s (OnAudio d)) as Hr'. cbn [step] in Hr'.
    rewrite Hr' by (intros ? [=]). by repeat split.
  - pose proof (on_conversation_text_agent_view s e) as [= Ha' _ Hc' Hn' Ht'].
    unfold closed_inv. rewrite Ha', Hc', Hn', Ht'.
    pose proof (step_relay_other s (OnText e)) as Hr'. cbn [step] in Hr'.
    rewrite Hr' by (intros ? [=]). by repeat split.
Qed.

(** C8. If [connection.start] returns false or raises, the agent thread is
    closed by that very step, and in every continuation it stays closed,
    the Termination Signal is set, no audio chunk was or is forwarded to
    the backend, the connection is not open and [finish] is not called. *)
Theorem handshake_failure agent_id now disk script1 c script2 :
  let s1 := run script1 (websocket_call agent_id now disk) in
  agent s1 = A_Start → c = Refused ∨ c = Raised →
  let s2 := run script2 (step s1 (Agent c)) in
  agent (step s1 (Agent c)) = A_Closed ∧
  agent s2 = A_Closed ∧ processing_complete s2 = true ∧
  forwarded (to_agent s2) = [] ∧ is_started (conn s2) = false ∧
  finishes s2 = 0%nat.
Proof.
  intros s1 Hag Hc s2.
  assert (unconnected_inv s1) as [Hs Hu].
  { apply run_invariant; [by split|]. apply unconnected_inv_step. }
  assert (finish_inv s1) as [_ Hf].
  { apply run_invariant; [by split|]. apply finish_inv_step. }
  rewrite Hag in Hu, Hf. destruct Hu as [Hfw Hcn].
  assert (closed_inv (step s1 (Agent c))) as Hcl.
  { cbn [step]. unfold closed_inv, agent_step, agent_except. rewrite Hag.
    destruct Hc as [-> | ->]; sim; split_and!; try done.
    all: intros Hr; apply Hs in Hr; congruence. }
  assert (closed_inv s2) as (_ & ? & ? & ? & ? & ?).
  { apply run_invariant; [exact Hcl|]. apply closed_inv_step. }
  destruct Hcl as (_ & ? & _). by repeat split.
Qed.

(** A run where [connection.start] returns false and the client goes on
    sending. *)
Lemma handshake_failure_witness :
  let script1 := [Relay Done; Agent Ok; Agent Ok; Agent Ok; Relay Done; Relay Done] in
  let script2 := [Relay (Got [x01]); Relay Done; Relay Done; Keep true; Keep true;
                  Agent Ok; OnAudio [x02]; Relay Done] in
  let s1 := run script1 (websocket_call "agent" now0 ∅) in
  agent s1 = A_Start ∧ (Refused = Refused ∨ Refused = Raised) ∧
  let s2 := run script2 (step s1 (Agent Refused)) in
  agent (step s1 (Agent Refused)) = A_Closed ∧
  agent s2 = A_Closed ∧ processing_complete s2 = true ∧
  forwarded (to_agent s2) = [] ∧ is_started (conn s2) = false ∧
  finishes s2 = 0%nat.
Proof.
  split; [reflexivity|]. split; [left; reflexivity|].
  apply (handshake_failure "agent" now0 ∅
    [Relay Done; Agent Ok; Agent Ok; Agent Ok; Relay Done; Relay Done] Refused);
    [reflexivity | left; reflexivity].
Defined.

(** ** A failed open: C3 *)

Lemma early_inv_relay_step disk s o :
  early_inv disk s → early_inv disk (relay_step s o).
Proof.
  intros (H1 & H2 & H3). unfold early_inv.
  revert H1 H2 H3. unfold relay_step, on_disconnect, on_fault, close_conv.
  destruct (relay s) as [| | | | | | | | | | | | |? []] eqn:Hpc, o; sim;
    try (rewrite Hpc; intros; split_and!; assumption);
    try match goal with
      | |- context [match Wav.create_wav_header_default with _ => _ end] =>
          destruct Wav.create_wav_header_default
      | |- context [match agent_audio_queue _ with _ => _ end] =>
          destruct (agent_audio_queue _)
      | |- context [match transcript_queue _ with _ => _ end] =>
          destruct (transcript_queue _)
      end; sim; intros H1 H2 H3;
    (split_and!; [discriminate || done | intros _; try (apply H2; discriminate)
                 | try discriminate ]).
  - discriminate.
  - intros _. destruct H3 as (?&?&?&?&?&?&?&_); [done|]. by repeat split.
  - intros _. by apply H3.
Qed.

Lemma early_inv_step disk s a : early_inv disk s → early_inv disk (step s a).
Proof.
  destruct a as [o|c|ok|d|e]; [apply early_inv_relay_step|..]; intros (H1 & H2 & H3).
  - pose proof (agent_step_relay_view s c) as [= _ _ Hr Hf Ho Hd Ht Hc _].
    assert (agent s = A_Unstarted ∨ agent s ≠ A_Unstarted) as [Hag|Hag]
      by (destruct (agent s); (by left) || (by right));
      [cbn [step]; by rewrite agent_step_unstarted|].
    unfold early_inv. cbn [step]. rewrite Hr, Hf, Ho, Hd, Ht, Hc.
    split_and!.
    + intros H. by destruct (Hag (H1 H)).
    + intros _. revert Hag. unfold agent_step, agent_except.
      destruct (agent s) eqn:Ea, c; try done; repeat case_match; sim;
        rewrite ?Ea; congruence.
    + intros Hb. destruct (H3 Hb) as (?&?&?&?&?&Hq&Hfw&Hs).
      split_and!; try assumption; revert Hs;
        unfold agent_step, agent_except; rewrite Hq;
        destruct (agent s) eqn:Ea, c; try done; repeat case_match; sim;
        rewrite ?Hq, ?Ea; done.
  - pose proof (keep_step_relay_view s ok) as [= _ _ Hr Hf Ho Hd Ht Hc _].
    destruct (keep_step_agent_view s ok) as (Ha & _ & _ & _ & Hfw).
    assert (client_audio_queue (keep_step s ok) = client_audio_queue s) as Hq
      by (unfold keep_step; destruct (keep s), ok;
          try destruct (Event_is_set (processing_complete s)); reflexivity).
    unfold early_inv. cbn [step]. rewrite Hr, Hf, Ho, Hd, Ht, Hc, Ha, Hfw, Hq.
    by split_and!.
  - pose proof (on_audio_data_relay_view s d) as [= _ _ Hr Hf Ho Hd Ht Hc _].
    pose proof (on_audio_data_agent_view s d) as [= Ha _ _ _ Hfw].
    assert (client_audio_queue (on_audio_data s d) = client_audio_queue s) as Hq
      by (unfold on_audio_data; destruct (callbacks_on (conn s)); reflexivity).
    unfold early_inv. cbn [step]. rewrite Hr, Hf, Ho, Hd, Ht, Hc, Ha, Hfw, Hq.
    by split_and!.
  - pose proof (on_conversation_text_relay_view s e) as [= _ _ Hr Hf Ho Hd Ht Hc _].
    pose proof (on_conversation_text_agent_view s e) as [= Ha _ _ _ Hfw].
    assert (client_audio_queue (on_conversation_text s e) = client_audio_queue s)
      as Hq by (unfold on_conversation_text; destruct (callbacks_on (conn s));
                reflexivity).
    unfold early_inv. cbn [step]. rewrite Hr, Hf, Ho, Hd, Ht, Hc, Ha, Hfw, Hq.
    by split_and!.
Qed.

(** C3, as the code has it. When [open] of line 114 raises, the relay loop
    is never entered: no file is created or written, no frame is received
    or sent to the client, no audio is forwarded to the backend, and the
    relay stays where the exception left it. But the agent thread was
    started before the [open] (line 111), so it is running. *)
Theorem open_failure agent_id now disk script :
  let s := run script (websocket_call agent_id now disk) in
  relay s = R_Exit false AtOpen →
  fs s = disk ∧ conv_file s = Unopened ∧ observed s = [] ∧ drained s = [] ∧
  to_client s = [] ∧ forwarded (to_agent s) = [] ∧
  agent s ≠ A_Unstarted ∧
  (∀ script', relay (run script' s) = R_Exit false AtOpen).
Proof.
  intros s Hpc.
  assert (early_inv disk s) as (_ & H2 & H3).
  { apply run_invariant; [|apply early_inv_step]. by split_and!. }
  rewrite Hpc in H2, H3. destruct H3 as (?&?&?&?&?&?&?&_); [done|].
  split_and!; try assumption.
  - by apply H2.
  - intros script'. by apply run_exit.
Qed.

(** A run whose [open] fails while the agent thread is running. *)
Lemma open_failure_witness :
  let s := run [Relay Done; Agent Ok; Relay Fault; Agent Ok; Keep true]
             (websocket_call "agent" now0 ∅) in
  relay s = R_Exit false AtOpen ∧
  (fs s = ∅ ∧ conv_file s = Unopened ∧ observed s = [] ∧ drained s = [] ∧
   to_client s = [] ∧ forwarded (to_agent s) = [] ∧
   agent s ≠ A_Unstarted ∧
   (∀ script', relay (run script' s) = R_Exit false AtOpen)).
Proof.
  split; [reflexivity|].
  apply (open_failure "agent" now0 ∅
           [Relay Done; Agent Ok; Relay Fault; Agent Ok; Keep true]).
  reflexivity.
Defined.

(** [open] raises, and the agent thread, started on line 111, goes on to a
    successful handshake; the Termination Signal is not set. *)
Lemma open_failure_connects :
  let s := run [Relay Done; Relay Fault; Agent Ok; Agent Ok; Agent Ok; Agent Ok]
             (websocket_call "agent" now0 ∅) in
  relay s = R_Exit false AtOpen ∧ conn s = Started options ∧
  processing_complete s = false.
Proof. repeat split. Qed.

(** ** A failed write: C2 *)

(** C2, as the code has it. A file append of the relay that raises (the
    audio writes of lines 121 and 126, the [open] and [write] of the
    transcript append, lines 133-134) is not caught: the only handler,
    line 136, is for [WebSocketDisconnect]. The exception leaves
    [websocket_call]: the relay is at [R_Exit false w] and stays there in
    every continuation, nothing is printed, the Termination Signal is left
    as it was, and the failed append has written nothing. *)
Theorem write_failure_propagates agent_id now disk script w :
  let s := run script (websocket_call agent_id now disk) in
  append_site (relay s) = Some w →
  let s' := step s (Relay Fault) in
  relay s' = R_Exit false w ∧ conv_file s' = Closed ∧
  stdout s' = stdout s ∧
  processing_complete s' = processing_complete s ∧
  fs s' = fs s ∧ to_client s' = to_client s ∧
  (∀ script', relay (run script' s') = R_Exit false w).
Proof.
  intros s Hw s'.
  assert (relay s' = R_Exit false w ∧ conv_file s' = Closed ∧
          stdout s' = stdout s ∧
          processing_complete s' = processing_complete s ∧
          fs s' = fs s ∧ to_client s' = to_client s)
    as (H1 & H2 & H3 & H4 & H5 & H6).
  { unfold s'. cbn [step]. unfold relay_step, on_fault, close_conv.
    revert Hw. destruct (relay s); try discriminate; intros [= <-]; by sim. }
  split_and!; try assumption. intros script'. by apply run_exit.
Qed.

(** A run in which the write of a client frame is the next statement. *)
Lemma write_failure_propagates_witness :
  let s := run [Relay Done; Relay Done; Relay Done; Relay (Got [x01]); Relay Done]
             (websocket_call "agent" now0 ∅) in
  append_site (relay s) = Some AtWriteClient ∧
  let s' := step s (Relay Fault) in
  relay s' = R_Exit false AtWriteClient ∧ conv_file s' = Closed ∧
  stdout s' = stdout s ∧
  processing_complete s' = processing_complete s ∧
  fs s' = fs s ∧ to_client s' = to_client s ∧
  (∀ script', relay (run script' s') = R_Exit false AtWriteClient).
Proof.
  split; [reflexivity|].
  apply (write_failure_propagates "agent" now0 ∅
           [Relay Done; Relay Done; Relay Done; Relay (Got [x01]); Relay Done]).
  reflexivity.
Defined.

(** The write of the first client frame raises: the relay has left its
    loop, nothing was printed, the Termination Signal is not set, and the
    frames the client sends afterwards are not received. *)
Lemma write_failure_stops_relay :
  let s := run [Relay Done; Relay Done; Relay Done; Relay (Got [x01]); Relay Done;
                Relay Fault] (websocket_call "agent" now0 ∅) in
  relay s = R_Exit false AtWriteClient ∧ stdout s = [] ∧
  processing_complete s = false ∧
  relay (run [Relay (Got [x02]); Relay Done; Relay Done] s) =
    R_Exit false AtWriteClient.
Proof. repeat split. Qed.

(** ** The files of a session: C9 *)

Lemma snoc_not_nil {A} (w : list A) e : w ++ [e] ≠ [].
Proof. by destruct w. Qed.

Lemma files_inv_relay_step disk (s : state) o :
  files_inv disk s → files_inv disk (relay_step s o).
Proof.
  intros (Hne & Hc & H).
  assert (Hne' : transcript_file s ≠ conversation_audio_file s) by congruence.
  destruct (relay_step_names s o) as [Hc' Ht'].
  split; [congruence|].
  revert Hc H. unfold conv_content, transcript_content. clear Hc' Ht'.
  unfold relay_step, on_disconnect, on_fault, close_conv.
  destruct (relay s) as [| | | | | | | | | | | | |? []] eqn:Hpc, o; sim;
    try (rewrite Hpc; intros; split; assumption);
    try match goal with
        | |- context [match Wav.create_wav_header_default with _ => _ end] =>
            destruct Wav.create_wav_header_default
        | |- context [match agent_audio_queue _ with _ => _ end] =>
            destruct (agent_audio_queue _)
        | |- context [match transcript_queue _ with _ => _ end] =>
            destruct (transcript_queue _)
        end; sim; cbn [before_open];
    intros Hc H;
    (split; [intros Hb; try discriminate Hb; try (apply Hc; reflexivity)|]).
  all: rewrite ?lookup_open_wb_eq; eauto using is_Some_write, is_Some_open_a.
  all: rewrite ?(lookup_open_wb_ne (conversation_audio_file s)) by assumption.
  all: rewrite ?(lookup_write_ne (conversation_audio_file s)) by assumption.
  all: rewrite ?(lookup_write_ne (transcript_file s)) by assumption.
  all: rewrite ?(lookup_open_a_ne (transcript_file s)) by assumption.
  all: try (apply Hc; reflexivity).
  all: try exact H.
  - destruct H as (w & e & Hd & _). split; [eauto | apply is_Some_open_a].
  - destruct H as [(w & e & Hd) _]. split; [|intros _; apply is_Some_write].
    rewrite Hd. intros Hn. by destruct (snoc_not_nil w e).
Qed.

Lemma files_inv_view disk s s' :
  relay_view s' = relay_view s → files_inv disk s → files_inv disk s'.
Proof.
  unfold relay_view, files_inv, conv_content, transcript_content.
  intros [= -> -> -> -> _ -> _ _ _]. done.
Qed.

Lemma files_inv_run disk script s : files_inv disk s → files_inv disk (run script s).
Proof.
  intros H. apply run_invariant; [exact H|]. clear.
  intros s [o| | | |] H; [by apply files_inv_relay_step|..];
    (eapply files_inv_view; [apply step_relay_view; intros ? [=] | exact H]).
Qed.

Lemma length_pad2 n : String.length (pad2 n) = 2%nat.
Proof. reflexivity. Qed.

Lemma length_strftime now : String.length (strftime now) = 14%nat.
Proof.
  unfold strftime, pad4. by rewrite !string_length_append, !length_pad2.
Qed.

(** C9, as the code has it. The two names are [conversation_<id>.wav] and
    [transcript_<id>.txt], where [<id>] is the 14 digits
    [%Y%m%d%H%M%S] of the clock read right after [accept], whatever its
    microseconds. The recording exists from its [open] on. The transcript
    is created by the first append: while no event has been drained the
    transcript is what the disk had under that name before the session
    (nothing, on a fresh name), and once an event has been handled it
    exists. *)
Theorem session_files agent_id now disk script :
  let s := run script (websocket_call agent_id now disk) in
  let session_id := strftime now in
  conversation_audio_file s = ("conversation_" ++ session_id ++ ".wav")%string ∧
  transcript_file s = ("transcript_" ++ session_id ++ ".txt")%string ∧
  String.length session_id = 14%nat ∧
  (∀ us, strftime (mkDatetime (year now) (month now) (day now) (hour now)
                     (minute now) (second now) us) = session_id) ∧
  (before_open (relay s) = false → is_Some (conv_content s)) ∧
  (drained s = [] → transcript_content s = disk !! transcript_file s) ∧
  (text_settled (relay s) = true → drained s ≠ [] →
   is_Some (transcript_content s)).
Proof.
  intros s session_id.
  destruct (run_names script (websocket_call agent_id now disk)) as [Hc Ht].
  fold s in Hc, Ht.
  assert (files_inv disk s) as (_ & Hconv & H).
  { apply files_inv_run. split; [apply names_differ|].
    split; [discriminate|]. split; [done|]. intros []. reflexivity. }
  split_and!; [done|done|apply length_strftime|done|done|..].
  - revert H. destruct (relay s) as [| | | | | | | | | | | | |? []];
      try (by intros [? _]).
    all: try (intros (w & e & -> & _); intros Hn; by destruct (snoc_not_nil w e)).
    all: intros [(w & e & ->) _] Hn; by destruct (snoc_not_nil w e).
  - revert H. destruct (relay s) as [| | | | | | | | | | | | |? []];
      try discriminate; by intros [_ ?].
Qed.

(** A session in which the client disconnects before any conversation
    event leaves no transcript file. *)
Lemma session_without_transcript :
  let s := run [Relay Done; Relay Done; Relay Done; Relay Disconnect]
             (websocket_call "agent" now0 ∅) in
  relay s = R_Exit true AtRecv ∧ processing_complete s = true ∧
  conv_file s = Closed ∧
  transcript_file s = "transcript_20240307090501.txt" ∧
  transcript_content s = None.
Proof. repeat split. Qed.

(** ** The path parameter: C10 *)

(** C10. The path parameter [agent_id] has no effect: two sessions that
    differ only in it run identically under every interleaving, in all of
    their state: bytes and messages sent, files, agent settings. *)
Theorem agent_id_unused agent_id agent_id' now disk script :
  run script (websocket_call agent_id now disk) =
  run script (websocket_call agent_id' now disk).
Proof. reflexivity. Qed.

(** ** The sample session *)

(** The sample session ends as the specification says. *)
Lemma scenario_recording :
  let s := run scenario (websocket_call "agent" now0 ∅) in
  ∃ h, Wav.create_wav_header_default = Some h ∧
       conv_content s = Some (h ++ [x01; x02; xaa; xbb; x03; x04]) ∧
       sent_bytes (to_client s) = [[xaa; xbb]] ∧
       sent_json (to_client s) = [("transcript", hi_event)] ∧
       string_of_list_byte <$> transcript_content s =
         Some (transcript_line hi_event) ∧
       processing_complete s = true ∧ conv_file s = Closed.
Proof. eexists. repeat split. Qed.

(** The line of the sample event. *)
Lemma dumps_hi_event :
  dumps hi_event =
  ("{" ++ quoted "role" ++ ": " ++ quoted "assistant" ++ ", " ++
   quoted "content" ++ ": " ++ quoted "hi" ++ "}")%string.
Proof. reflexivity. Qed.

(** Why [text_ok] asks for no high surrogate before a low one: the decoder
    joins the pair. *)
Lemma loads_joins_surrogates :
  text_ok [0xd83d; 0xde00]%N = false ∧
  loads (dumps [([107], [0xd83d; 0xde00])]%N) = Some [([107], [0x1f600])]%N.
Proof. split; reflexivity. Qed.
